(** * The taco tensor runtime ([include/taco/tensor.h]) in Rocq

    A shallow embedding of [TensorBase], [Tensor<CType>], [ScalarAccess] and
    the buffered [const_iterator] of [tensor.h], followed by the properties
    the specification states about them and by further properties of the
    code.

    Conventions.
    - A C++ member function that mutates [*this] takes the tensor and returns
      the updated tensor.  A failed [taco_uassert] is the result [Failure]
      carrying the streamed message; behaviour the C++ standard leaves
      undefined (a null or out-of-bounds access) is [Undefined].
    - [std::shared_ptr<Context>] is an address into a heap of reference
      counted cells, so that two iterators can alias one context.
    - Code of the repository that is not part of the header (the bodies in
      [tensor.cpp], the generated kernels) is modelled from the
      specification; each such definition says so. *)

From stdpp Require Import base strings numbers option list.

Open Scope Z_scope.

(** ** Datatypes, formats and storage *)

(** Modelled from the spec: [taco/type.h] is absent.  A [Datatype] is "a
    runtime tag identifying a numeric element kind (e.g. width +
    signedness/float-ness)". *)
Inductive NumericKind := SignedInt | UnsignedInt | FloatingPoint.

Record Datatype := mkDatatype { kind : NumericKind; width : N }.

#[global] Instance NumericKind_eq_dec : EqDecision NumericKind.
Proof. solve_decision. Defined.

#[global] Instance Datatype_eq_dec : EqDecision Datatype.
Proof. solve_decision. Defined.

(** Modelled from the spec: [type<int>()], the type of every index array
    ("types fixed to an integer kind"), and [type<double>()]. *)
Definition Int32 : Datatype := mkDatatype SignedInt 32.
Definition Float64 : Datatype := mkDatatype FloatingPoint 64.

(** Modelled from the spec: [Datatype::getNumBytes], the size of the
    "value-sized slot" of a record. *)
Definition getNumBytes (d : Datatype) : N := (width d / 8)%N.

(** Modelled from the spec: [taco/format.h] is absent.  A mode is "dense"
    or "compressed"; a [Format] is "an ordered sequence of ModeFormat plus a
    mode ordering permutation". *)
Inductive ModeFormat := dense | compressed.

Record Format := mkFormat { modeFormats : list ModeFormat; modeOrdering : list Z }.

#[global] Instance ModeFormat_eq_dec : EqDecision ModeFormat.
Proof. solve_decision. Defined.

#[global] Instance Format_eq_dec : EqDecision Format.
Proof. solve_decision. Defined.

(** Modelled from the spec: the formats [CSR] and [CSC] of [format.h],
    compressed sparse row and compressed sparse column: a dense mode over a
    compressed one, rows first for CSR and columns first for CSC. *)
Definition CSR : Format := mkFormat [dense; compressed] [0; 1].
Definition CSC : Format := mkFormat [dense; compressed] [1; 0].

(** Modelled from the spec: [taco/storage/array.h] and [index.h] are
    absent.  An array is "a typed, contiguous value buffer"; a mode index is
    the list of its arrays ("position array = index 0, coordinate array =
    index 1"); an index has one mode index per mode. *)
Record Array := mkArray { arrType : Datatype; arrData : list Z }.
Definition ModeIndex := list Array.
Definition Index := list ModeIndex.

(** ** Messages and results *)

(** One operand of the [<<] chain that follows a [taco_uassert]. *)
Inductive Fragment :=
  | Text (s : string)
  | TypeName (d : Datatype)
  | TensorName (n : string)
  | IntValue (z : Z)
  | Joined (l : list Z)
  | ErrorConstant (s : string).

Definition Message := list Fragment.

#[global] Instance Fragment_eq_dec : EqDecision Fragment.
Proof. solve_decision. Defined.

Inductive Result (A : Type) : Type :=
  | Ok (a : A)
  | Failure (m : Message)
  | Undefined
  | OutOfFuel.

Arguments Ok {A} a.
Arguments Failure {A} m.
Arguments Undefined {A}.
Arguments OutOfFuel {A}.

#[global] Instance Result_ret : MRet Result := fun A a => Ok a.

#[global] Instance Result_bind : MBind Result := fun A B f r =>
  match r with
  | Ok a => f a
  | Failure m => Failure m
  | Undefined => Undefined
  | OutOfFuel => OutOfFuel
  end.

(** Modelled from the spec: the macro [taco_uassert] of [taco/error.h] is
    absent.  [taco_uassert(c) << m] continues when [c] holds and otherwise
    makes the call "fail immediately" with the streamed message [m]. *)
Definition taco_uassert (c : bool) (m : Message) : Result unit :=
  if c then Ok tt else Failure m.

(** A read through a pointer or an index that may be null or out of range. *)
Definition defined {A} (o : option A) : Result A :=
  match o with
  | Some a => Ok a
  | None => Undefined
  end.

(** [v[i]] for an [int] index into a [std::vector]. *)
Definition index_at {A} (v : list A) (i : Z) : option A :=
  if i <? 0 then None else v !! Z.to_nat i.

(** How the body of a loop ends: it falls through to the next round or it
    returns from the enclosing function. *)
Inductive Flow (St R : Type) : Type :=
  | Continue (s : St)
  | Return (r : R).

Arguments Continue {St R} s.
Arguments Return {St R} r.

(** ** Unsigned machine arithmetic *)

(** [size_t] is 64 bits wide; [a - b] wraps around when [b] exceeds [a]. *)
Definition size_t_width : N := 64.
Definition size_t_sub (a b : N) : N := ((a + 2 ^ size_t_width - b) mod 2 ^ size_t_width)%N.

(** [sizeof(int)]. *)
Definition sizeof_int : N := 4.

(** ** The component type

    [template <typename CType>]: the C++ type of a component, the value the
    literal [0] converts to, its addition (which only the generated pack
    kernel applies) and its runtime tag [type<CType>()]. *)
Class ComponentType (CType : Type) := {
  CType_zero : CType;
  CType_add : CType → CType → CType;
  type_CType : Datatype;
}.

(** The builder of the physical index of a packed tensor, an external
    collaborator taken as a parameter: given the format, the dimensions and
    the distinct stored coordinates it returns the position and coordinate
    arrays. *)
Class IndexBuilder := buildIndex : Format → list Z → list (list Z) → Index.

Section Model.
Context {CType : Type} {CT : ComponentType CType} {IB : IndexBuilder}.

(** A coordinate with its value: [std::pair<std::vector<int>,CType>]. *)
Abbreviation value_type := (list Z * CType)%type (only parsing).

(** Modelled from the spec: [taco/storage/storage.h] is absent.  A
    storage "pairs one Index per mode with one value Array";
    [stComponents] is the content of both as the sequence of stored
    components, in the order the generated iteration kernel enumerates
    them. *)
Record TensorStorage := mkStorage {
  stIndex : Index;
  stComponents : list value_type;
}.

(** Modelled from the spec: [TensorStorage::getValues], the value array. *)
Definition getValues (s : TensorStorage) : list CType := (stComponents s).*2.

(** Modelled from the spec: the code generator ([taco/codegen/module.h] and
    the lowering, absent) "returns a callable module exposing named entry
    points", here the assemble and the compute kernel acting on the
    destination storage; an assignment is what the generator makes of it for
    a format and a datatype, if it can lower it at all. *)
Record Module_ := mkModule {
  assembleKernel : TensorStorage → TensorStorage;
  computeKernel : TensorStorage → TensorStorage;
}.

Record Assignment := mkAssignment { lower : Format → Datatype → option Module_ }.

(** Modelled from the spec: [struct TensorBase::Content] is defined in
    [tensor.cpp].  The shared content block holds "name, shape, datatype,
    format, storage, assignment, four boolean need-flags, allocation-size
    hint, cached kernel handle". *)
Record Content := mkContent {
  cName : string;
  cDimensions : list Z;
  cType : Datatype;
  cFormat : Format;
  cStorage : TensorStorage;
  cAssignment : option Assignment;
  cNeedsPack : bool;
  cNeedsCompile : bool;
  cNeedsAssemble : bool;
  cNeedsCompute : bool;
  cAssembleWhileCompute : bool;
  cAllocSize : N;
  cModule : option Module_;
}.

(** [std::vector<char>] holding the inserted records: its size in bytes
    and, for the bytes below [coordinateBufferUsed], the records written
    there, oldest first. *)
Record CoordinateBuffer := mkBuffer {
  bufSize : N;
  bufRecords : list value_type;
}.

(** The data members of [class TensorBase]. *)
Record TensorBase := mkTensor {
  content : Content;
  coordinateBuffer : CoordinateBuffer;
  coordinateBufferUsed : N;
  coordinateSize : N;
}.

(** *** Metadata methods *)

Definition getName (t : TensorBase) : string := cName (content t).
Definition getDimensions (t : TensorBase) : list Z := cDimensions (content t).
Definition getOrder (t : TensorBase) : nat := length (getDimensions t).
Definition getComponentType (t : TensorBase) : Datatype := cType (content t).
Definition getFormat (t : TensorBase) : Format := cFormat (content t).
Definition getStorage (t : TensorBase) : TensorStorage := cStorage (content t).
Definition getAssignment (t : TensorBase) : option Assignment := cAssignment (content t).
Definition needsPack (t : TensorBase) : bool := cNeedsPack (content t).
Definition needsCompile (t : TensorBase) : bool := cNeedsCompile (content t).
Definition needsAssemble (t : TensorBase) : bool := cNeedsAssemble (content t).
Definition needsCompute (t : TensorBase) : bool := cNeedsCompute (content t).

Definition withContent (f : Content → Content) (t : TensorBase) : TensorBase :=
  mkTensor (f (content t)) (coordinateBuffer t) (coordinateBufferUsed t) (coordinateSize t).

Definition setStorage (s : TensorStorage) : TensorBase → TensorBase :=
  withContent (fun c =>
    mkContent (cName c) (cDimensions c) (cType c) (cFormat c) s (cAssignment c)
      (cNeedsPack c) (cNeedsCompile c) (cNeedsAssemble c) (cNeedsCompute c)
      (cAssembleWhileCompute c) (cAllocSize c) (cModule c)).

Definition setNeedsPack (b : bool) : TensorBase → TensorBase :=
  withContent (fun c =>
    mkContent (cName c) (cDimensions c) (cType c) (cFormat c) (cStorage c) (cAssignment c)
      b (cNeedsCompile c) (cNeedsAssemble c) (cNeedsCompute c)
      (cAssembleWhileCompute c) (cAllocSize c) (cModule c)).

Definition setNeedsCompile (b : bool) : TensorBase → TensorBase :=
  withContent (fun c =>
    mkContent (cName c) (cDimensions c) (cType c) (cFormat c) (cStorage c) (cAssignment c)
      (cNeedsPack c) b (cNeedsAssemble c) (cNeedsCompute c)
      (cAssembleWhileCompute c) (cAllocSize c) (cModule c)).

Definition setNeedsAssemble (b : bool) : TensorBase → TensorBase :=
  withContent (fun c =>
    mkContent (cName c) (cDimensions c) (cType c) (cFormat c) (cStorage c) (cAssignment c)
      (cNeedsPack c) (cNeedsCompile c) b (cNeedsCompute c)
      (cAssembleWhileCompute c) (cAllocSize c) (cModule c)).

Definition setNeedsCompute (b : bool) : TensorBase → TensorBase :=
  withContent (fun c =>
    mkContent (cName c) (cDimensions c) (cType c) (cFormat c) (cStorage c) (cAssignment c)
      (cNeedsPack c) (cNeedsCompile c) (cNeedsAssemble c) b
      (cAssembleWhileCompute c) (cAllocSize c) (cModule c)).

Definition setModule (m : Module_) : TensorBase → TensorBase :=
  withContent (fun c =>
    mkContent (cName c) (cDimensions c) (cType c) (cFormat c) (cStorage c) (cAssignment c)
      (cNeedsPack c) (cNeedsCompile c) (cNeedsAssemble c) (cNeedsCompute c)
      (cAssembleWhileCompute c) (cAllocSize c) (Some m)).

(** Modelled from the spec: the constructor
    [TensorBase(name, ctype, dimensions, format)] is defined in
    [tensor.cpp].  A tensor is "created with shape/datatype/format (storage
    uninitialized)", no stage is pending, the coordinate buffer is empty and
    "each record is order integers followed by one value-sized slot". *)
Definition TensorBase_new (name : string) (ctype : Datatype) (dimensions : list Z)
    (format : Format) : TensorBase :=
  mkTensor
    (mkContent name dimensions ctype format (mkStorage [] []) None
       false false false false false 1048576%N None)
    (mkBuffer 0 [])
    0
    (N.of_nat (length dimensions) * sizeof_int + getNumBytes ctype)%N.

(** [Tensor<CType>(name, dimensions, format)]. *)
Definition Tensor_new (name : string) (dimensions : list Z) (format : Format) : TensorBase :=
  TensorBase_new name type_CType dimensions format.

(** Modelled from the spec: [syncDependentTensors] is defined in
    [tensor.cpp].  It "forces every dependent to complete evaluation against
    T's pre-insertion state before the new coordinate is appended"; the
    dependents are other tensors, and nothing of the inserting tensor
    changes. *)
Definition syncDependentTensors (t : TensorBase) : Result TensorBase := Ok t.

(** *** Write methods *)

(** [TensorBase::insert(const std::vector<int>&, CType)]; the overload for
    an initializer list has the same body.  The record is written at byte
    [coordinateBufferUsed], which is inside the buffer whenever the used
    part was inside it before the call. *)
Definition insert (t : TensorBase) (coordinate : list Z) (value : CType) : Result TensorBase :=
  _ ← taco_uassert (bool_decide (length coordinate = getOrder t))
        [Text "Wrong number of indices"];
  _ ← taco_uassert (bool_decide (getComponentType t = type_CType))
        [Text "Cannot insert a value of type '"; TypeName type_CType; Text "' ";
         Text "into a tensor with component type "; TypeName (getComponentType t)];
  t ← syncDependentTensors t;
  let buffer := coordinateBuffer t in
  let size :=
    if (size_t_sub (bufSize buffer) (coordinateBufferUsed t) <? coordinateSize t)%N
    then (bufSize buffer + coordinateSize t)%N
    else bufSize buffer in
  Ok (setNeedsPack true
        (mkTensor (content t)
           (mkBuffer size (bufRecords buffer ++ [(coordinate, value)]))
           (coordinateBufferUsed t + coordinateSize t)%N
           (coordinateSize t))).

(** [TensorBase::setFromComponents(begin, end)] over the components of the
    range, in order. *)
Fixpoint setFromComponents (t : TensorBase) (components : list value_type) : Result TensorBase :=
  match components with
  | [] => Ok t
  | it :: rest => t ← insert t it.1 it.2; setFromComponents t rest
  end.

(** *** The stages: pack, compile, assemble, compute

    The bodies of the stages are in [tensor.cpp]; the header declares them.
    They are modelled from section 4.1 of the specification. *)

(** Modelled from the spec: the generated pack kernel.  It combines
    "structurally duplicate coordinates" by addition: a record whose
    coordinate is already stored adds its value to the stored one, any other
    record is stored after the ones before it. *)
Fixpoint accumulate (coordinate : list Z) (value : CType) (stored : list value_type)
    : list value_type :=
  match stored with
  | [] => [(coordinate, value)]
  | (c, v) :: rest =>
      if decide (c = coordinate) then (c, CType_add v value) :: rest
      else (c, v) :: accumulate coordinate value rest
  end.

(** Modelled from the spec: the components the pack kernel stores for the
    records of the coordinate buffer, taken oldest first. *)
Definition pack_components (records : list value_type) : list value_type :=
  fold_left (fun stored r => accumulate r.1 r.2 stored) records [].

(** Modelled from the spec: the "new TensorStorage" of a pack. *)
Definition pack_kernel (format : Format) (dimensions : list Z) (records : list value_type)
    : TensorStorage :=
  let components := pack_components records in
  mkStorage (buildIndex format dimensions components.*1) components.

(** Modelled from the spec: [pack()] "invokes [the pack kernel] against the
    Coordinate Buffer, producing a new TensorStorage ...; clears the logical
    content of the Coordinate Buffer; clears needsPack; sets
    needsAssemble/needsCompute if an assignment is pending". *)
Definition pack (t : TensorBase) : Result TensorBase :=
  let packed := pack_kernel (getFormat t) (getDimensions t) (bufRecords (coordinateBuffer t)) in
  let t := mkTensor (content t) (mkBuffer (bufSize (coordinateBuffer t)) []) 0%N
             (coordinateSize t) in
  let t := setNeedsPack false (setStorage packed t) in
  Ok (match getAssignment t with
      | Some _ => setNeedsCompute true (setNeedsAssemble true t)
      | None => t
      end).

(** Modelled from the spec: the contract violation "missing assignment
    when compile/assemble/compute is requested". *)
Definition missing_assignment (stage : string) : Message :=
  [Text stage; Text " requires an assignment"].

(** Modelled from the spec: [compile()] "requires an Assignment to be set;
    requests a compute+assemble kernel pair for (assignment, format,
    datatype) from the code generator, caching the result; clears
    needsCompile"; when the generator fails "no partial state is
    committed". *)
Definition compile (t : TensorBase) : Result TensorBase :=
  match getAssignment t with
  | None => Failure (missing_assignment "compile")
  | Some a =>
      match lower a (getFormat t) (getComponentType t) with
      | None => Failure [Text "compilation failure"]
      | Some m => Ok (setNeedsCompile false (setModule m t))
      end
  end.

(** Modelled from the spec: the cached kernels of a tensor whose
    assignment is set and compiled. *)
Definition compiled (t : TensorBase) (stage : string) : Result Module_ :=
  match getAssignment t, cModule (content t) with
  | None, _ => Failure (missing_assignment stage)
  | Some _, None => Failure [Text stage; Text " requires a compiled kernel"]
  | Some _, Some m => Ok m
  end.

(** Modelled from the spec: [assemble()] "invokes the generated assemble
    kernel ... (unless assembleWhileCompute is set, in which case assemble
    and compute run as one combined generated call); clears
    needsAssemble". *)
Definition assemble (t : TensorBase) : Result TensorBase :=
  m ← compiled t "assemble";
  let s := assembleKernel m (getStorage t) in
  let s := if cAssembleWhileCompute (content t) then computeKernel m s else s in
  Ok (setNeedsAssemble false (setStorage s t)).

(** Modelled from the spec: [compute()] "invokes the generated compute
    kernel, filling destination values given already-assembled structure;
    clears needsCompute". *)
Definition compute (t : TensorBase) : Result TensorBase :=
  m ← compiled t "compute";
  Ok (setNeedsCompute false (setStorage (computeKernel m (getStorage t)) t)).

(** Modelled from the spec: [evaluate()] "runs exactly the subsequence of
    {pack, compile, assemble, compute} whose flags are set, in the fixed
    order above", where "running an earlier stage may set a later flag". *)
Definition evaluate (t : TensorBase) : Result TensorBase :=
  t ← (if needsPack t then pack t else Ok t);
  t ← (if needsCompile t then compile t else Ok t);
  t ← (if needsAssemble t then assemble t else Ok t);
  if needsCompute t then compute t else Ok t.

(** Modelled from the spec: [syncValues()] "forces evaluate() to
    completion". *)
Definition syncValues (t : TensorBase) : Result TensorBase := evaluate t.

(** ** The iteration engine: [TensorBase::const_iterator<T,CType>] *)

(** What one call of the generated iteration kernel leaves behind: the
    iteration state it owns, the two buffers it filled and the number of
    records it produced. *)
Record KernelResult := mkKernelResult {
  k_iterCtx : option (list Z);
  k_coordBuffer : list Z;
  k_valBuffer : list CType;
  k_count : nat;
}.

(** [fnptr_t], called with [{&ctx->iterCtx, ctx->coordBuffer,
    ctx->valBuffer, &bufferCapacity, tensorStorage}].  The iteration state is
    a block of [int]-sized words (or null) whose first word is its size in
    bytes. *)
Definition fnptr_t : Type :=
  option (list Z) → list Z → list CType → nat → TensorStorage → KernelResult.

(** [struct Context]. *)
Record Context := mkContext {
  coordBuffer : list Z;
  valBuffer : list CType;
  curVal : value_type;
  iterCtx : option (list Z);
}.

(** [Context(order, bufferCapacity, iterCtx)]; fresh buffers read as zero. *)
Definition Context_new (order bufferCapacity : nat) (iterCtx : option (list Z)) : Context :=
  mkContext (replicate (order * bufferCapacity) 0) (replicate bufferCapacity CType_zero)
    (replicate order 0, CType_zero) iterCtx.

(** The control block of a [std::shared_ptr<Context>] with its object. *)
Record Shared := mkShared { pointee : Context; use_count : nat }.

(** The free store is the list of the cells: a shared pointer is the
    position of its cell, null is [None].  A cell whose count fell to zero
    stays in place, unreachable. *)
Abbreviation Heap := (list Shared) (only parsing).

Definition make_shared (h : Heap) (c : Context) : Heap * nat :=
  (h ++ [mkShared c 1], length h).

(** [p.use_count()], zero for a null pointer. *)
Definition use_count_of (h : Heap) (p : option nat) : nat :=
  match p with
  | Some a => from_option use_count 0%nat (h !! a)
  | None => 0%nat
  end.

(** Copying and destroying a shared pointer. *)
Definition retain (h : Heap) (p : option nat) : Heap :=
  match p with
  | Some a => alter (fun s => mkShared (pointee s) (S (use_count s))) a h
  | None => h
  end.

Definition release (h : Heap) (p : option nat) : Heap :=
  match p with
  | Some a => alter (fun s => mkShared (pointee s) (pred (use_count s))) a h
  | None => h
  end.

(** The data members of [const_iterator]; [tensor] is the address of the
    tensor handle, and the integers are the ones the code keeps
    non-negative. *)
Record const_iterator := mkIterator {
  tensor : nat;
  tensorStorage : TensorStorage;
  tensorOrder : nat;
  bufferCapacity : nat;
  bufferSize : nat;
  bufferPos : nat;
  iterFunc : option fnptr_t;
  ctx : option nat;
}.

Definition set_bufferSize (n : nat) (it : const_iterator) : const_iterator :=
  mkIterator (tensor it) (tensorStorage it) (tensorOrder it) (bufferCapacity it)
    n (bufferPos it) (iterFunc it) (ctx it).

Definition set_bufferPos (n : nat) (it : const_iterator) : const_iterator :=
  mkIterator (tensor it) (tensorStorage it) (tensorOrder it) (bufferCapacity it)
    (bufferSize it) n (iterFunc it) (ctx it).

Definition set_ctx (p : option nat) (it : const_iterator) : const_iterator :=
  mkIterator (tensor it) (tensorStorage it) (tensorOrder it) (bufferCapacity it)
    (bufferSize it) (bufferPos it) (iterFunc it) p.

(** [memcpy(dst, src + from, n * sizeof(T))] read side: the [n] elements of
    [src] from position [from], undefined when they are not all there. *)
Definition memcpy_from {A} (src : list A) (from n : nat) : Result (list A) :=
  if decide (from + n ≤ length src)%nat then Ok (take n (drop from src)) else Undefined.

(** [const_iterator(const const_iterator&)]: every member is copied, the
    context is shared. *)
Definition const_iterator_copy (h : Heap) (it : const_iterator) : Heap * const_iterator :=
  (retain h (ctx it), it).

(** The destructor. *)
Definition const_iterator_destroy (h : Heap) (it : const_iterator) : Heap :=
  release h (ctx it).

(** [isEnd()]. *)
Definition isEnd (it : const_iterator) : bool := bool_decide (bufferSize it = 0%nat).

(** [operator*]: [ctx->curVal]. *)
Definition deref (h : Heap) (it : const_iterator) : Result value_type :=
  a ← defined (ctx it);
  s ← defined (h !! a);
  Ok (curVal (pointee s)).

(** [fillBuffer()]. *)
Definition fillBuffer (h : Heap) (it : const_iterator) : Result (Heap * const_iterator) :=
  a ← defined (ctx it);
  s ← defined (h !! a);
  f ← defined (iterFunc it);
  let c := pointee s in
  let r := f (iterCtx c) (coordBuffer c) (valBuffer c) (bufferCapacity it) (tensorStorage it) in
  Ok (<[a := mkShared (mkContext (k_coordBuffer r) (k_valBuffer r) (curVal c) (k_iterCtx r))
                 (use_count s)]> h,
      set_bufferSize (k_count r) it).

(** The first branch of [advance()]: the context is shared, so the
    iterator moves to a copy of it. *)
Definition clone_context (h : Heap) (it : const_iterator) : Result (Heap * const_iterator) :=
  a ← defined (ctx it);
  s ← defined (h !! a);
  let c := pointee s in
  blob ← defined (iterCtx c);
  iterCtxSize ← defined (head blob);
  _ ← (if iterCtxSize <? 0 then Undefined else Ok tt);
  coords ← memcpy_from (coordBuffer c) 0 (tensorOrder it * bufferCapacity it);
  vals ← memcpy_from (valBuffer c) 0 (bufferCapacity it);
  state ← memcpy_from blob 0 (Z.to_nat (iterCtxSize / Z.of_N sizeof_int));
  let ctxCopy := mkContext coords vals (replicate (tensorOrder it) 0, CType_zero) (Some state) in
  let '(h, p) := make_shared (release h (ctx it)) ctxCopy in
  Ok (h, set_ctx (Some p) it).

(** [advance()]. *)
Definition advance (h : Heap) (it : const_iterator) : Result (Heap * const_iterator) :=
  '(h, it) ← (if decide (1 < use_count_of h (ctx it))%nat then clone_context h it
              else Ok (h, it));
  let it := set_bufferPos (S (bufferPos it)) it in
  '(h, it) ← (if decide (bufferSize it ≤ bufferPos it)%nat
              then '(h, it) ← fillBuffer h it; Ok (h, set_bufferPos 0 it)
              else Ok (h, it));
  a ← defined (ctx it);
  s ← defined (h !! a);
  let c := pointee s in
  first ← memcpy_from (coordBuffer c) (bufferPos it * tensorOrder it) (tensorOrder it);
  second ← defined (valBuffer c !! bufferPos it);
  Ok (<[a := mkShared (mkContext (coordBuffer c) (valBuffer c) (first, second) (iterCtx c))
                 (use_count s)]> h,
      it).

(** [operator++()]: advance, then return a copy of [*this]; the caller of
    the statement [++it] drops the copy at once. *)
Definition pre_increment (h : Heap) (it : const_iterator) : Result (Heap * const_iterator) :=
  '(h, it) ← advance h it;
  let '(h, result) := const_iterator_copy h it in
  Ok (const_iterator_destroy h result, it).

(** [operator++(int)]: copy, advance, return the copy. *)
Definition post_increment (h : Heap) (it : const_iterator)
    : Result (Heap * const_iterator * const_iterator) :=
  let '(h, result) := const_iterator_copy h it in
  '(h, it) ← advance h it;
  Ok (h, it, result).

(** [operator==] and [operator!=]; [&&] and [||] evaluate their right
    operand only when it decides the result. *)
Definition op_eq (h : Heap) (lhs rhs : const_iterator) : Result bool :=
  if negb (bool_decide (tensor lhs = tensor rhs)) then Ok false
  else if negb (bool_decide (isEnd lhs = isEnd rhs)) then Ok false
  else if isEnd lhs then Ok true
  else
    l ← deref h lhs;
    r ← deref h rhs;
    Ok (bool_decide (l.1 = r.1)).

Definition op_neq (h : Heap) (lhs rhs : const_iterator) : Result bool :=
  b ← op_eq h lhs rhs;
  Ok (negb b).

(** Modelled from the spec: the generated iteration kernel
    [_shim_iterate], which [getHelperFunctions(...)->getFuncPtr] returns.
    It "returns a count of records produced, 0 meaning exhausted; the first
    call ... must accept a null iteration-state pointer and
    allocate/initialize it, writing a discoverable size header".  The state
    is the header (two words, eight bytes) and the number of components
    handed out so far; a call writes the next [capacity] components at the
    front of the two buffers. *)
Definition shim_iterate : fnptr_t := fun iterCtx coordBuffer valBuffer capacity storage =>
  let cursor := match iterCtx with
                | Some [_; k] => Z.to_nat k
                | _ => 0%nat
                end in
  let batch := take capacity (drop cursor (stComponents storage)) in
  let coords := concat batch.*1 in
  let vals := batch.*2 in
  mkKernelResult (Some [8; Z.of_nat (cursor + length batch)])
    (coords ++ drop (length coords) coordBuffer)
    (vals ++ drop (length vals) valBuffer)
    (length batch).

(** [const_iterator(const TensorBase* tensor, bool isEnd)], for the tensor
    [t] at address [self]. *)
Definition const_iterator_new (h : Heap) (self : nat) (t : TensorBase) (isEnd : bool)
    : Result (Heap * const_iterator) :=
  let it := mkIterator self (getStorage t) (getOrder t) 100 0 0 None None in
  if isEnd then Ok (h, it)
  else
    let '(h, p) := make_shared h (Context_new (tensorOrder it) (bufferCapacity it) None) in
    advance h
      (mkIterator (tensor it) (tensorStorage it) (tensorOrder it) (bufferCapacity it)
         (bufferSize it) (bufferPos it) (Some shim_iterate) (Some p)).

(** [TensorBase::iterator() const] and [iteratorTyped() const] only wrap
    the tensor pointer; the overloads that are not [const] call
    [syncValues()] first. *)
Definition iterator_const (t : TensorBase) : TensorBase := t.
Definition iterator (t : TensorBase) : Result TensorBase := syncValues t.

(** [Tensor<CType>::begin() const], [end() const], and the overloads that
    are not [const]. *)
Definition begin_const (h : Heap) (self : nat) (t : TensorBase) : Result (Heap * const_iterator) :=
  const_iterator_new h self (iterator_const t) false.

Definition end_const (h : Heap) (self : nat) (t : TensorBase) : Result (Heap * const_iterator) :=
  const_iterator_new h self (iterator_const t) true.

Definition begin_ (h : Heap) (self : nat) (t : TensorBase)
    : Result (TensorBase * Heap * const_iterator) :=
  t ← iterator t;
  '(h, it) ← const_iterator_new h self t false;
  Ok (t, h, it).

Definition end_ (h : Heap) (self : nat) (t : TensorBase)
    : Result (TensorBase * Heap * const_iterator) :=
  t ← iterator t;
  '(h, it) ← const_iterator_new h self t true;
  Ok (t, h, it).

(** [for (auto& value : range) body], that is
    [for (; it != end; ++it) { value = *it; body }], run for at most [fuel]
    rounds. *)
Fixpoint range_for {St R} (fuel : nat) (h : Heap) (it end_it : const_iterator)
    (body : value_type → St → Result (Flow St R)) (s : St) : Result (Flow St R) :=
  match fuel with
  | O => OutOfFuel
  | S fuel =>
      ne ← op_neq h it end_it;
      if ne : bool then
        value ← deref h it;
        f ← body value s;
        match f with
        | Return r => Ok (Return r)
        | Continue s =>
            '(h, it) ← pre_increment h it;
            range_for fuel h it end_it body s
        end
      else Ok (Continue s)
  end.

(** Rounds that suffice for a loop over the stored components. *)
Definition rounds (t : TensorBase) : nat := S (length (stComponents (getStorage t))).

(** *** Read methods *)

(** [iterate<CType>(tensor)]: a [Tensor<CType>] handle on the same content. *)
Definition iterate (t : TensorBase) : Result TensorBase :=
  _ ← taco_uassert (bool_decide (getComponentType t = type_CType))
        [Text "Assigning TensorBase with "; TypeName (getComponentType t);
         Text " components to a Tensor<"; TypeName type_CType; Text ">"];
  Ok t.

(** [TensorBase::at<CType>(coordinate)].  The loop runs over a temporary
    handle, whose address is immaterial; its contexts live in a free store
    of their own. *)
Definition at_ (t : TensorBase) (coordinate : list Z) : Result (TensorBase * CType) :=
  _ ← taco_uassert (bool_decide (length coordinate = getOrder t))
        [Text "Wrong number of indices"];
  _ ← taco_uassert (bool_decide (getComponentType t = type_CType))
        [Text "Cannot get a value of type '"; TypeName type_CType; Text "' ";
         Text "from a tensor with component type "; TypeName (getComponentType t)];
  t ← syncValues t;
  t ← iterate t;
  '(t, h, it) ← begin_ [] 0%nat t;
  '(t, h, end_it) ← end_ h 0%nat t;
  r ← range_for (rounds t) h it end_it
        (fun value (_ : unit) =>
           if decide (value.1 = coordinate) then Ok (Return value.2) else Ok (Continue tt))
        tt;
  match r with
  | Return v => Ok (t, v)
  | Continue _ => Ok (t, CType_zero)
  end.

(** A caller's loop [for (auto& value : tensor) out.push_back(value)] over
    a [const Tensor<CType>&] at address [self], and over a tensor that is
    not [const]. *)
Definition iterated_const (self : nat) (t : TensorBase) : Result (list value_type) :=
  '(h, it) ← begin_const [] self t;
  '(h, end_it) ← end_const h self t;
  r ← range_for (R := Empty_set) (rounds t) h it end_it
        (fun value out => Ok (Continue (out ++ [value]))) [];
  match r with
  | Continue out => Ok out
  | Return r => match r : Empty_set with end
  end.


(** [for (int mode : modes) out.push_back(v[mode])]. *)
Fixpoint gather {A} (v : list A) (modes : list Z) : Result (list A) :=
  match modes with
  | [] => Ok []
  | mode :: rest =>
      x ← defined (index_at v mode);
      xs ← gather v rest;
      Ok (x :: xs)
  end.

(** What [gather] collects when every mode is in range:
    [(v[modes[0]], ..., v[modes[n-1]])]. *)
Definition permute (modes : list Z) (v : list Z) : list Z :=
  (fun mode => default 0 (index_at v mode)) <$> modes.

(** [Tensor<CType>::transpose(name, newModeOrdering, format) const], for
    the tensor [t] at address [self]. *)
Definition transpose (self : nat) (t : TensorBase) (name : string)
    (newModeOrdering : list Z) (format : Format) : Result TensorBase :=
  newDimensions ← gather (getDimensions t) newModeOrdering;
  let newTensor := Tensor_new name newDimensions format in
  '(h, it) ← begin_const [] self t;
  '(h, end_it) ← end_const h self t;
  r ← range_for (R := Empty_set) (rounds t) h it end_it
        (fun value newTensor =>
           newCoordinate ← gather value.1 newModeOrdering;
           newTensor ← insert newTensor newCoordinate value.2;
           Ok (Continue newTensor))
        newTensor;
  match r with
  | Continue newTensor => pack newTensor
  | Return r => match r : Empty_set with end
  end.

(** [transpose(name, newModeOrdering) const] keeps the format. *)
Definition transpose_same_format (self : nat) (t : TensorBase) (name : string)
    (newModeOrdering : list Z) : Result TensorBase :=
  transpose self t name newModeOrdering (getFormat t).

(** *** [ScalarAccess<CType>] *)

Record ScalarAccess := mkScalarAccess { sa_tensor : nat; indices : list Z }.

(** [Tensor<CType>::operator()(const std::vector<int>& indices)]. *)
Definition Tensor_call (self : nat) (t : TensorBase) (indices : list Z) : Result ScalarAccess :=
  _ ← taco_uassert (bool_decide (length indices = getOrder t))
        [Text "A tensor of order "; IntValue (Z.of_nat (getOrder t));
         Text " must be indexed with "; IntValue (Z.of_nat (getOrder t));
         Text " variables, but is indexed with:  "; Joined indices];
  Ok (mkScalarAccess self indices).

(** [ScalarAccess::operator=(CType scalar)] and [operator CType()], on the
    tensor [t] the access points to. *)
Definition ScalarAccess_assign (a : ScalarAccess) (scalar : CType) (t : TensorBase)
    : Result TensorBase :=
  insert t (indices a) scalar.

Definition ScalarAccess_read (a : ScalarAccess) (t : TensorBase) : Result (TensorBase * CType) :=
  at_ t (indices a).

(** [tensor(indices) = scalar] and [CType x = tensor(indices)]. *)
Definition assign_scalar (self : nat) (t : TensorBase) (indices : list Z) (scalar : CType)
    : Result TensorBase :=
  a ← Tensor_call self t indices;
  ScalarAccess_assign a scalar t.

Definition read_scalar (self : nat) (t : TensorBase) (indices : list Z)
    : Result (TensorBase * CType) :=
  a ← Tensor_call self t indices;
  ScalarAccess_read a t.

(** The statements [tensor(indices) = v] for the values [v] of a list, in
    order. *)
Fixpoint assign_scalars (self : nat) (t : TensorBase) (indices : list Z) (scalars : list CType)
    : Result TensorBase :=
  match scalars with
  | [] => Ok t
  | v :: rest => t ← assign_scalar self t indices v; assign_scalars self t indices rest
  end.

(** *** Format-specific accessors *)

Definition getModeIndex (index : Index) (i : nat) : Result ModeIndex := defined (index !! i).
Definition getIndexArray (m : ModeIndex) (i : nat) : Result Array := defined (m !! i).

(** [getCSRArrays(tensor, &rowptr, &colidx, &vals)]; the three arrays are
    the result. *)
Definition getCSRArrays (tensor : TensorBase) : Result (list Z * list Z * list CType) :=
  _ ← taco_uassert (bool_decide (getFormat tensor = CSR))
        [Text "The tensor "; TensorName (getName tensor);
         Text " is not defined in the CSR format"];
  let storage := getStorage tensor in
  let index := stIndex storage in
  m ← getModeIndex index 1;
  rowptrArr ← getIndexArray m 0;
  m ← getModeIndex index 1;
  colidxArr ← getIndexArray m 1;
  _ ← taco_uassert (bool_decide (arrType rowptrArr = Int32)) [ErrorConstant "error::type_mismatch"];
  _ ← taco_uassert (bool_decide (arrType colidxArr = Int32)) [ErrorConstant "error::type_mismatch"];
  Ok (arrData rowptrArr, arrData colidxArr, getValues storage).

(** [getCSCArrays(tensor, &colptr, &rowidx, &vals)]; the three arrays are
    the result. *)
Definition getCSCArrays (tensor : TensorBase) : Result (list Z * list Z * list CType) :=
  _ ← taco_uassert (bool_decide (getFormat tensor = CSC))
        [Text "The tensor "; TensorName (getName tensor);
         Text " is not defined in the CSC format"];
  let storage := getStorage tensor in
  let index := stIndex storage in
  m ← getModeIndex index 1;
  colptrArr ← getIndexArray m 0;
  m ← getModeIndex index 1;
  rowidxArr ← getIndexArray m 1;
  _ ← taco_uassert (bool_decide (arrType colptrArr = Int32)) [ErrorConstant "error::type_mismatch"];
  _ ← taco_uassert (bool_decide (arrType rowidxArr = Int32)) [ErrorConstant "error::type_mismatch"];
  Ok (arrData colptrArr, arrData rowidxArr, getValues storage).

End Model.


(** ** Vocabulary of the properties

    The notions the statements below are written in: what an operation
    leaves behind, what an iterator shows, what a storage holds. *)

Section Vocabulary.
Context {CType : Type} {CT : ComponentType CType} {IB : IndexBuilder}.
Abbreviation value_type := (list Z * CType)%type (only parsing).
Abbreviation Heap := (list (Shared (CType := CType))) (only parsing).
Implicit Types (t : TensorBase (CType := CType)) (h : Heap).
Implicit Types (it : const_iterator (CType := CType)).

(** The tensor [insert] leaves behind when both checks pass. *)
Definition inserted t (coordinate : list Z) (value : CType) : TensorBase :=
  let buffer := coordinateBuffer t in
  setNeedsPack true
    (mkTensor (content t)
       (mkBuffer
          (if (size_t_sub (bufSize buffer) (coordinateBufferUsed t) <? coordinateSize t)%N
           then (bufSize buffer + coordinateSize t)%N
           else bufSize buffer)
          (bufRecords buffer ++ [(coordinate, value)]))
       (coordinateBufferUsed t + coordinateSize t)%N
       (coordinateSize t)).

(** The claim C6 as the specification words it: the buffer grows by a
    factor, that is, some ratio [p/q] above one bounds every growth from
    below. *)
Definition grows_geometrically : Prop :=
  ∃ p q : N, (0 < q < p)%N ∧
    ∀ t coordinate value t',
      insert t coordinate value = Ok t' →
      (bufSize (coordinateBuffer t) < bufSize (coordinateBuffer t'))%N →
      (p * bufSize (coordinateBuffer t) ≤ q * bufSize (coordinateBuffer t'))%N.

(** A message identifies the expected and the actual arity when both
    numbers are among its fragments. *)
Definition identifies_arity (m : Message) (expected actual : nat) : Prop :=
  IntValue (Z.of_nat expected) ∈ m ∧ IntValue (Z.of_nat actual) ∈ m.

(** No stage is pending. *)
Definition settled t : Prop :=
  needsPack t = false ∧ needsCompile t = false
  ∧ needsAssemble t = false ∧ needsCompute t = false.

(** [advance()] seen from the context it works on: the step it takes once
    the context is the iterator's own. *)
Definition step_context it (c : Context) : Result (Context * const_iterator) :=
  let it := set_bufferPos (S (bufferPos it)) it in
  '(c, it) ← (if decide (bufferSize it ≤ bufferPos it)%nat
              then
                f ← defined (iterFunc it);
                let r := f (iterCtx c) (coordBuffer c) (valBuffer c) (bufferCapacity it)
                           (tensorStorage it) in
                Ok (mkContext (k_coordBuffer r) (k_valBuffer r) (curVal c) (k_iterCtx r),
                    set_bufferPos 0 (set_bufferSize (k_count r) it))
              else Ok (c, it));
  first ← memcpy_from (coordBuffer c) (bufferPos it * tensorOrder it) (tensorOrder it);
  second ← defined (valBuffer c !! bufferPos it);
  Ok (mkContext (coordBuffer c) (valBuffer c) (first, second) (iterCtx c), it).

(** The copy [advance()] makes of a context that is shared. *)
Definition clone_of it (c : Context) : Result Context :=
  blob ← defined (iterCtx c);
  iterCtxSize ← defined (head blob);
  _ ← (if iterCtxSize <? 0 then Undefined else Ok tt);
  coords ← memcpy_from (coordBuffer c) 0 (tensorOrder it * bufferCapacity it);
  vals ← memcpy_from (valBuffer c) 0 (bufferCapacity it);
  state ← memcpy_from blob 0 (Z.to_nat (iterCtxSize / Z.of_N sizeof_int));
  Ok (mkContext coords vals (replicate (tensorOrder it) 0, CType_zero) (Some state)).

(** What an iterator shows: its position in the batch, the size of the
    batch, and its context (the current pair, both buffers and the
    iteration state). *)
Definition observation h it : Result (nat * nat * Context) :=
  a ← defined (ctx it);
  s ← defined (h !! a);
  Ok (bufferPos it, bufferSize it, pointee s).

(** What it shows after its next [advance()]. *)
Definition next_observation h it : Result (nat * nat * Context) :=
  '(h, it) ← advance h it;
  observation h it.

(** [n] times [++it]. *)
Fixpoint advance_n (n : nat) h it : Result (Heap * const_iterator) :=
  match n with
  | O => Ok (h, it)
  | S n => '(h, it) ← pre_increment h it; advance_n n h it
  end.

(** The value stored at a coordinate: the one of the first component with
    that coordinate. *)
Fixpoint stored_at (coordinate : list Z) (components : list value_type) : option CType :=
  match components with
  | [] => None
  | (c, v) :: rest => if decide (c = coordinate) then Some v else stored_at coordinate rest
  end.

(** The values inserted at a coordinate, oldest first. *)
Definition values_at (coordinate : list Z) (records : list value_type) : list CType :=
  (filter (fun r => r.1 = coordinate) records).*2.

(** The sum [v + v1 + ... + vk], taken from the left. *)
Definition sum_from (v : CType) (vs : list CType) : CType := fold_left CType_add vs v.

(** A storage as [pack()] leaves it: no coordinate twice, every coordinate
    of the arity of the tensor. *)
Definition well_formed (order : nat) (components : list value_type) : Prop :=
  NoDup components.*1 ∧ Forall (fun r => length r.1 = order) components.

(** The loop [range_for] over a list of components instead of a pair of
    iterators. *)
Fixpoint list_for {St R} (components : list value_type)
    (body : value_type → St → Result (Flow St R)) (s : St) : Result (Flow St R) :=
  match components with
  | [] => Ok (Continue s)
  | value :: rest =>
      f ← body value s;
      match f with
      | Return r => Ok (Return r)
      | Continue s => list_for rest body s
      end
  end.

(** The context [c] holds the batch of the components that starts at
    component number [b]; the iterator is at position [pos] of the [size]
    records of the batch. *)
Definition holds_batch (st : TensorStorage (CType := CType)) (order cap : nat)
    (c : Context (CType := CType)) (size pos b : nat) : Prop :=
  ∃ restc restv,
    let batch := take cap (drop b (stComponents st)) in
    size = length batch
    ∧ iterCtx c = Some [8; Z.of_nat (b + length batch)]
    ∧ coordBuffer c = concat batch.*1 ++ restc
    ∧ length (coordBuffer c) = (order * cap)%nat
    ∧ valBuffer c = batch.*2 ++ restv
    ∧ length (valBuffer c) = cap
    ∧ ((pos < size)%nat ∨ (size = 0 ∧ pos = 0)%nat)
    ∧ ∀ v, batch !! pos = Some v → curVal c = v.

(** The iterator [it] is the only owner of its context, reads the storage
    [st] through the generated kernel, and stands at component number
    [i]. *)
Definition stands_at (st : TensorStorage (CType := CType)) (order cap : nat) h it
    (i : nat) : Prop :=
  ∃ a s b,
    iterFunc it = Some shim_iterate ∧ tensorStorage it = st
    ∧ tensorOrder it = order ∧ bufferCapacity it = cap
    ∧ ctx it = Some a ∧ h !! a = Some s ∧ use_count s = 1%nat
    ∧ holds_batch st order cap (pointee s) (bufferSize it) (bufferPos it) b
    ∧ i = (b + bufferPos it)%nat.

(** The message of [Tensor<CType>::operator()] for indices whose number is
    not the order of the tensor. *)
Definition wrong_index_count t (indices : list Z) : Message :=
  [Text "A tensor of order "; IntValue (Z.of_nat (getOrder t));
   Text " must be indexed with "; IntValue (Z.of_nat (getOrder t));
   Text " variables, but is indexed with:  "; Joined indices].

(** The two index arrays of the second mode and the value array of a
    storage, when both index arrays are there and of type [int]. *)
Definition compressed_arrays (s : TensorStorage (CType := CType)) : option (list Z * list Z * list CType) :=
  m ← stIndex s !! 1%nat;
  pos ← m !! 0%nat;
  crd ← m !! 1%nat;
  if decide (arrType pos = Int32 ∧ arrType crd = Int32)
  then Some (arrData pos, arrData crd, getValues s)
  else None.

End Vocabulary.

(** ** A concrete instantiation

    [Tensor<int>] with exact integer addition, used to evaluate the
    definitions on concrete tensors. *)

#[global] Instance Z_component : ComponentType Z :=
  {| CType_zero := 0; CType_add := Z.add; type_CType := Int32 |}.

(** An index builder that allocates no array. *)
#[global] Instance no_index : IndexBuilder := fun _ _ _ => [].

(** A 2x3 matrix of [int] in CSR, a 2x3 matrix of [double], an order-3
    tensor. *)
Definition matrixA : TensorBase (CType := Z) := Tensor_new "A" [2; 3] CSR.
Definition matrixD : TensorBase (CType := Z) := TensorBase_new "D" Float64 [2; 3] CSR.
Definition cubeB : TensorBase (CType := Z) :=
  Tensor_new "B" [2; 3; 4] (mkFormat [dense; compressed; compressed] [0; 1; 2]).

(** [matrixA] after [insert({0,1}, 5); insert({1,2}, 7); insert({0,1}, 10)]. *)
Definition insertedA : Result (TensorBase (CType := Z)) :=
  setFromComponents matrixA [([0; 1], 5); ([1; 2], 7); ([0; 1], 10)].

(** ... and after [pack()]. *)
Definition packedA : Result (TensorBase (CType := Z)) := t ← insertedA; pack t.



(** [Tensor<double>] on the numbers that are integers.  A [double] has 53
    significant bits; the sum of two of them is the exact sum rounded to
    the nearest number with 53 significant bits, to the even one of two
    that are equally near (the default rounding of IEEE 754; sums beyond
    the range of [double] are left aside). *)
Record IntegralDouble := mkDouble { double_value : Z }.

Definition round_to_double (z : Z) : Z :=
  let e := Z.log2 (Z.abs z) - 52 in
  if e <=? 0 then z
  else
    let q := z / 2 ^ e in
    let r := z mod 2 ^ e in
    let half := 2 ^ (e - 1) in
    if r <? half then q * 2 ^ e
    else if half <? r then (q + 1) * 2 ^ e
    else (if Z.even q then q else q + 1) * 2 ^ e.

#[global] Instance double_component : ComponentType IntegralDouble :=
  {| CType_zero := mkDouble 0;
     CType_add a b := mkDouble (round_to_double (double_value a + double_value b));
     type_CType := Float64 |}.


(** The value of a computation that is known to succeed. *)
Definition ok_or {A} (d : A) (r : Result A) : A :=
  match r with
  | Ok a => a
  | _ => d
  end.

(** [matrixA] with its three records pending, and packed. *)
Definition insertedT : TensorBase (CType := Z) := ok_or matrixA insertedA.
Definition packedT : TensorBase (CType := Z) := ok_or matrixA packedA.

(** A matrix with the single component [({0,1}, 5)]. *)
Definition singleT : TensorBase (CType := Z) :=
  ok_or matrixA (t ← insert matrixA [0; 1] 5; pack t).

(** [end()] of the tensor [t] at address [self]. *)
Definition end_of (self : nat) (t : TensorBase (CType := Z)) : const_iterator (CType := Z) :=
  mkIterator self (getStorage t) (getOrder t) 100 0 0 None None.

(** [packedT.begin()], a copy of that iterator, and the state after [++]
    on the copy; each is a free store with an iterator. *)
Definition begunT : list (Shared (CType := Z)) * const_iterator (CType := Z) :=
  ok_or ([], end_of 0 packedT) (begin_const [] 0 packedT).

Definition copiedT : list (Shared (CType := Z)) * const_iterator (CType := Z) :=
  const_iterator_copy begunT.1 begunT.2.

Definition advancedT : list (Shared (CType := Z)) * const_iterator (CType := Z) :=
  ok_or copiedT (pre_increment copiedT.1 copiedT.2).

(** [singleT.begin()] advanced past its only component, and a second
    [singleT.begin()] in the same free store. *)
Definition exhaustedS : list (Shared (CType := Z)) * const_iterator (CType := Z) :=
  ok_or ([], end_of 0 singleT) ('(h, it) ← begin_const [] 0 singleT; pre_increment h it).

Definition freshS : list (Shared (CType := Z)) * const_iterator (CType := Z) :=
  ok_or exhaustedS (begin_const exhaustedS.1 0 singleT).

(** A tensor whose coordinate buffer of [size] bytes is full. *)
Definition full_buffer (size : N) : TensorBase (CType := Z) :=
  mkTensor (content matrixA) (mkBuffer size []) size 12.

(** A second [packedT.begin()], made in the free store of the first. *)
Definition secondT : list (Shared (CType := Z)) * const_iterator (CType := Z) :=
  ok_or begunT (begin_const begunT.1 0 packedT).

(** [packedT.begin()] after [++it], and after [it++] with the iterator the
    operator returned. *)
Definition steppedT : list (Shared (CType := Z)) * const_iterator (CType := Z) :=
  ok_or begunT (pre_increment begunT.1 begunT.2).

Definition postT
    : list (Shared (CType := Z)) * const_iterator (CType := Z) * const_iterator (CType := Z) :=
  ok_or (begunT, begunT.2) (post_increment begunT.1 begunT.2).

(** The matrix [[0 15 0] [0 0 7]] with the arrays of its compressed rows,
    as a CSR tensor and, with the same storage, as a CSC tensor. *)
Definition compressedS : TensorStorage (CType := Z) :=
  mkStorage
    [[mkArray Int32 [2]]; [mkArray Int32 [0; 1; 2]; mkArray Int32 [1; 2]]]
    [([0; 1], 15); ([1; 2], 7)].

Definition csrT : TensorBase (CType := Z) := setStorage compressedS (Tensor_new "A" [2; 3] CSR).
Definition cscT : TensorBase (CType := Z) := setStorage compressedS (Tensor_new "A" [2; 3] CSC).

(** A tensor whose storage holds 250 components, [({i,0}, i)] for [i]
    below 250, and then the coordinate [{7,0}] a second time. *)
Definition longT : TensorBase (CType := Z) :=
  setStorage
    (mkStorage [] (((fun i => ([Z.of_nat i; 0], Z.of_nat i)) <$> seq 0 250) ++ [([7; 0], 1000)]))
    (Tensor_new "L" [250; 1] CSR).

(** * Properties *)

Section Properties.
Context {CType : Type} {CT : ComponentType CType} {IB : IndexBuilder}.
Abbreviation value_type := (list Z * CType)%type (only parsing).
Abbreviation Heap := (list (Shared (CType := CType))) (only parsing).
Implicit Types (t : TensorBase (CType := CType)) (h : Heap).
Implicit Types (it : const_iterator (CType := CType)).
Implicit Types (components stored records : list (list Z * CType)).

(** ** Results *)

Lemma bind_Ok {A B} (m : Result A) (f : A → Result B) b :
  (m ≫= f) = Ok b ↔ ∃ a, m = Ok a ∧ f a = Ok b.
Proof. destruct m; simpl; split; try (intros (? & ? & ?)); naive_solver. Qed.

Lemma taco_uassert_Ok c m u : taco_uassert c m = Ok u ↔ c = true.
Proof. destruct c, u; simpl; naive_solver. Qed.

Lemma defined_Ok {A} (o : option A) a : defined o = Ok a ↔ o = Some a.
Proof. destruct o; simpl; naive_solver. Qed.

(** Splits a hypothesis [(x ← m; k) = Ok b] into the two runs. *)
Ltac bind_inv H :=
  let x := fresh "x" in
  let Hx := fresh "Hx" in
  apply bind_Ok in H as (x & Hx & H).

(** ** The coordinate buffer *)

Lemma size_t_sub_exact (a b : N) :
  (b ≤ a < 2 ^ size_t_width)%N → size_t_sub a b = (a - b)%N.
Proof.
  unfold size_t_sub, size_t_width. intros [Hb Ha].
  replace (a + 2 ^ 64 - b)%N with ((a - b) + 1 * 2 ^ 64)%N by lia.
  rewrite N.Div0.mod_add. apply N.mod_small. lia.
Qed.

Lemma insert_Ok t coordinate value :
  length coordinate = getOrder t → getComponentType t = type_CType →
  insert t coordinate value = Ok (inserted t coordinate value).
Proof.
  intros Ha Hty. unfold insert.
  rewrite !bool_decide_eq_true_2 by done. reflexivity.
Qed.

Lemma insert_inv t coordinate value t' :
  insert t coordinate value = Ok t' →
  length coordinate = getOrder t ∧ getComponentType t = type_CType
  ∧ t' = inserted t coordinate value.
Proof.
  intros H. assert (length coordinate = getOrder t ∧ getComponentType t = type_CType) as [Ha Hty].
  { unfold insert in H. bind_inv H. bind_inv H.
    apply taco_uassert_Ok, bool_decide_eq_true in Hx.
    apply taco_uassert_Ok, bool_decide_eq_true in Hx0. done. }
  rewrite insert_Ok in H by done. by injection H as <-.
Qed.

(** C6 (as amended).  When the bytes left in the coordinate buffer are
    fewer than one record, [insert] enlarges the buffer by exactly the size
    of one record, and otherwise leaves its size alone; the size never
    decreases, and a buffer that held its used part before the call holds it
    after the call. *)
Theorem insert_grows_by_one_record t coordinate value t' :
  insert t coordinate value = Ok t' →
  let size := bufSize (coordinateBuffer t) in
  let size' := bufSize (coordinateBuffer t') in
  size' = (if (size_t_sub size (coordinateBufferUsed t) <? coordinateSize t)%N
           then size + coordinateSize t else size)%N
  ∧ (size ≤ size')%N
  ∧ coordinateBufferUsed t' = (coordinateBufferUsed t + coordinateSize t)%N
  ∧ ((coordinateBufferUsed t ≤ size < 2 ^ size_t_width)%N →
     (coordinateBufferUsed t' ≤ size')%N).
Proof.
  intros H. apply insert_inv in H as (_ & _ & ->). simpl.
  split; [done|]. split; [case_match; lia|]. split; [done|].
  intros Hb. rewrite size_t_sub_exact by done.
  case_match eqn:Hlt; [lia|]. apply N.ltb_ge in Hlt. lia.
Qed.

(** ** Contract violations *)

(** C7 (as amended).  [insert] and [at] called with a coordinate of the
    wrong arity fail with the fixed text "Wrong number of indices"; called
    with the right arity on a tensor of another component type they fail
    with a message that names the requested type and the component type of
    the tensor; [getCSRArrays] on a tensor whose format is not CSR fails
    with a message that names the tensor and the CSR format.  Each failure
    is the result of the call: no value is produced in its place. *)
Theorem contract_violations_fail t coordinate value :
  (length coordinate ≠ getOrder t →
     insert t coordinate value = Failure [Text "Wrong number of indices"]
     ∧ at_ t coordinate = Failure [Text "Wrong number of indices"])
  ∧ (length coordinate = getOrder t → getComponentType t ≠ type_CType →
     insert t coordinate value =
       Failure [Text "Cannot insert a value of type '"; TypeName type_CType; Text "' ";
                Text "into a tensor with component type "; TypeName (getComponentType t)]
     ∧ at_ t coordinate =
       Failure [Text "Cannot get a value of type '"; TypeName type_CType; Text "' ";
                Text "from a tensor with component type "; TypeName (getComponentType t)])
  ∧ (getFormat t ≠ CSR →
     getCSRArrays t =
       Failure [Text "The tensor "; TensorName (getName t);
                Text " is not defined in the CSR format"]).
Proof.
  split; [|split].
  - intros Ha. unfold insert, at_.
    rewrite !(bool_decide_eq_false_2 (length _ = _)) by done. done.
  - intros Ha Hty. unfold insert, at_.
    rewrite !(bool_decide_eq_true_2 (length _ = _)) by done.
    rewrite !(bool_decide_eq_false_2 (getComponentType _ = _)) by done. done.
  - intros Hf. unfold getCSRArrays.
    rewrite (bool_decide_eq_false_2 (getFormat _ = _)) by done. done.
Qed.

(** ** The stages *)

Lemma evaluate_settled t : settled t → evaluate t = Ok t.
Proof.
  intros (H1 & H2 & H3 & H4). unfold evaluate.
  rewrite H1; simpl. rewrite H2; simpl. rewrite H3; simpl. by rewrite H4.
Qed.

Lemma evaluate_settles t t' : evaluate t = Ok t' → settled t'.
Proof.
  unfold evaluate, settled. destruct t as [[] ? ? ?]. intros H.
  repeat (bind_inv H). revert Hx Hx0 Hx1 H.
  unfold pack, compile, assemble, compute, compiled, needsPack, needsCompile,
    needsAssemble, needsCompute, getAssignment, setNeedsPack, setNeedsCompile,
    setNeedsAssemble, setNeedsCompute, setStorage, setModule, withContent. simpl.
  intros; repeat (case_match; simplify_eq/=); done.
Qed.

(** C8.  Running [evaluate()] a second time, with nothing in between,
    gives what the first run gave, a failure included; after a run that
    succeeds no stage is pending and a further run changes nothing. *)
Theorem evaluate_idempotent t :
  (evaluate t ≫= evaluate) = evaluate t
  ∧ ∀ t1, evaluate t = Ok t1 →
      needsPack t1 = false ∧ needsCompile t1 = false
      ∧ needsAssemble t1 = false ∧ needsCompute t1 = false
      ∧ evaluate t1 = Ok t1.
Proof.
  assert (∀ t1, evaluate t = Ok t1 → settled t1 ∧ evaluate t1 = Ok t1) as Hfix.
  { intros t1 H. pose proof (evaluate_settles _ _ H) as Hs.
    split; [done|]. by apply evaluate_settled. }
  split.
  - destruct (evaluate t) as [t1| | |] eqn:E; simpl; try done. by apply Hfix.
  - intros t1 H. destruct (Hfix t1 H) as [(? & ? & ? & ?) ?]. done.
Qed.

(** ** The iteration engine *)

Lemma Shared_eta (s : Shared (CType := CType)) : mkShared (pointee s) (use_count s) = s.
Proof. by destruct s. Qed.

Lemma step_context_ctx it c c' it' :
  step_context it c = Ok (c', it') →
  ctx it' = ctx it ∧ tensor it' = tensor it ∧ tensorStorage it' = tensorStorage it
  ∧ tensorOrder it' = tensorOrder it ∧ bufferCapacity it' = bufferCapacity it
  ∧ iterFunc it' = iterFunc it.
Proof.
  unfold step_context. intros H. bind_inv H. destruct x as [c1 it1].
  bind_inv H. bind_inv H. injection H as <- <-.
  case_decide; [bind_inv Hx|]; by simplify_eq/=.
Qed.

Lemma step_context_set_ctx p it c :
  step_context (set_ctx p it) c =
  '(c', it') ← step_context it c; Ok (c', set_ctx p it').
Proof.
  unfold step_context; simpl.
  case_decide; simpl.
  - destruct (iterFunc it); simpl; [|done].
    destruct (memcpy_from _ _ _); simpl; try done.
    by destruct (defined _).
  - destruct (memcpy_from _ _ _); simpl; try done.
    by destruct (defined _).
Qed.

Lemma advance_unshared h it a s :
  ctx it = Some a → h !! a = Some s → (use_count s ≤ 1)%nat →
  advance h it =
  '(c, it') ← step_context it (pointee s); Ok (<[a := mkShared c (use_count s)]> h, it').
Proof.
  intros Hc Ha Hu. unfold advance, step_context, fillBuffer, use_count_of.
  rewrite Hc, Ha. simpl. rewrite decide_False by lia. simpl.
  case_decide; simpl.
  - repeat (first [rewrite Hc | rewrite Ha]; simpl).
    destruct (iterFunc it) as [f|]; simpl; [|done].
    rewrite Hc. simpl. rewrite list_lookup_insert_eq by (by eapply lookup_lt_Some). simpl.
    destruct (memcpy_from _ _ _); simpl; try done.
    destruct (defined _); simpl; try done.
    by rewrite list_insert_insert_eq.
  - repeat (first [rewrite Hc | rewrite Ha]; simpl).
    destruct (memcpy_from _ _ _); simpl; try done.
    by destruct (defined _).
Qed.

Lemma release_length h p : length (release h p) = length h.
Proof. destruct p; simpl; [apply length_alter|done]. Qed.

Lemma retain_length h p : length (retain h p) = length h.
Proof. destruct p; simpl; [apply length_alter|done]. Qed.

Lemma advance_shared h it a s :
  ctx it = Some a → h !! a = Some s → (1 < use_count s)%nat →
  advance h it =
  c0 ← clone_of it (pointee s);
  '(c, it') ← step_context (set_ctx (Some (length h)) it) c0;
  Ok (release h (Some a) ++ [mkShared c 1%nat], it').
Proof.
  intros Hc Ha Hu. unfold advance, clone_context, clone_of, use_count_of, make_shared.
  rewrite Hc, Ha. simpl. rewrite decide_True by lia. simpl.
  repeat (first [rewrite Hc | rewrite Ha]; simpl).
  destruct (iterCtx (pointee s)) as [blob|]; simpl; [|done].
  destruct (head blob) as [sz|]; simpl; [|done].
  destruct (sz <? 0); simpl; [done|].
  destruct (memcpy_from (coordBuffer _) _ _) as [coords| | |]; simpl; try done.
  destruct (memcpy_from (valBuffer _) _ _) as [vals| | |]; simpl; try done.
  destruct (memcpy_from blob _ _) as [state| | |]; simpl; try done.
  rewrite length_alter.
  set (c0 := mkContext coords vals _ _).
  set (h0 := alter _ a h).
  assert (length h0 = length h) as Hlen by apply length_alter.
  assert (∀ x, (h0 ++ [x]) !! length h = Some x) as Hlast.
  { intros x. rewrite lookup_app_r by lia. by rewrite Hlen, Nat.sub_diag. }
  assert (∀ x y, <[length h := y]> (h0 ++ [x]) = h0 ++ [y]) as Hins.
  { intros x y. rewrite insert_app_r_alt by lia. by rewrite Hlen, Nat.sub_diag. }
  unfold step_context, fillBuffer; simpl.
  case_decide; simpl.
  - rewrite Hlast; simpl. destruct (iterFunc it) as [f|]; simpl; [|done].
    rewrite Hins, Hlast; simpl.
    destruct (memcpy_from _ _ _); simpl; try done.
    destruct (defined _); simpl; try done.
    by rewrite Hins.
  - rewrite Hlast; simpl.
    destruct (memcpy_from _ _ _); simpl; try done.
    destruct (defined _); simpl; try done.
    by rewrite Hins.
Qed.

Lemma release_retain h p : release (retain h p) p = h.
Proof.
  destruct p as [a|]; simpl; [|done].
  rewrite list_alter_alter_eq. apply list_alter_id. by intros [].
Qed.

(** The copy [operator++()] returns is dropped at once: [++it] is
    [advance()]. *)
Lemma pre_increment_advance h it : pre_increment h it = advance h it.
Proof.
  unfold pre_increment, const_iterator_copy, const_iterator_destroy.
  destruct (advance h it) as [[h0 it0]| | |]; simpl; try done.
  by rewrite release_retain.
Qed.

Lemma advance_Ok_ctx h it h' it' :
  advance h it = Ok (h', it') → ∃ a s, ctx it = Some a ∧ h !! a = Some s.
Proof.
  destruct (ctx it) as [a|] eqn:Hc; [destruct (h !! a) as [s|] eqn:Ha|]; [by eauto|..];
    unfold advance, fillBuffer, use_count_of; rewrite Hc, ?Ha; simpl;
    (case_decide; simpl; repeat (first [rewrite Hc | rewrite Ha]; simpl); done).
Qed.

(** An [advance()] touches no cell but the iterator's own, and moves the
    iterator to no cell that existed before. *)
Lemma advance_frame h it h' it' b :
  advance h it = Ok (h', it') → ctx it ≠ Some b → (b < length h)%nat →
  h' !! b = h !! b ∧ (length h ≤ length h')%nat ∧ ctx it' ≠ Some b.
Proof.
  intros H Hb Hlt. destruct (advance_Ok_ctx _ _ _ _ H) as (a & s & Hc & Ha).
  assert (a ≠ b) as Hab by congruence.
  destruct (decide (1 < use_count s)%nat) as [Hu|Hu].
  - rewrite (advance_shared _ _ _ _ Hc Ha Hu) in H.
    bind_inv H. bind_inv H. destruct x0 as [c it0]. injection H as <- <-.
    apply step_context_ctx in Hx0 as (Hctx & _). simpl in Hctx.
    simpl. rewrite lookup_app_l by (by rewrite length_alter).
    rewrite list_lookup_alter_ne by done.
    rewrite length_app, length_alter. split; [done|]. split; [lia|].
    rewrite Hctx. intros [= ?]. lia.
  - rewrite (advance_unshared _ _ _ _ Hc Ha) in H by lia.
    bind_inv H. destruct x as [c it0]. injection H as <- <-.
    apply step_context_ctx in Hx as (Hctx & _).
    rewrite list_lookup_insert_ne by done. rewrite length_insert.
    split; [done|]. split; [lia|]. by rewrite Hctx.
Qed.

Lemma advance_n_frame n h it h' it' b :
  advance_n n h it = Ok (h', it') → ctx it ≠ Some b → (b < length h)%nat →
  h' !! b = h !! b.
Proof.
  revert h it. induction n as [|n IH]; simpl; intros h it H Hb Hlt.
  - by injection H as <- <-.
  - bind_inv H. destruct x as [h0 it0]. rewrite pre_increment_advance in Hx.
    destruct (advance_frame _ _ _ _ _ Hx Hb Hlt) as (Heq & Hlen & Hb0).
    rewrite <- Heq. apply (IH _ _ H); [done|lia].
Qed.

(** What the next [advance()] shows depends on the iterator and on its own
    cell only. *)
Lemma next_observation_spec h it a s :
  ctx it = Some a → h !! a = Some s →
  next_observation h it =
  c0 ← (if decide (1 < use_count s)%nat then clone_of it (pointee s) else Ok (pointee s));
  '(c, it') ← step_context it c0;
  Ok (bufferPos it', bufferSize it', c).
Proof.
  intros Hc Ha. unfold next_observation. case_decide as Hu.
  - rewrite (advance_shared _ _ _ _ Hc Ha Hu). simpl.
    destruct (clone_of it (pointee s)) as [c0| | |]; simpl; try done.
    rewrite step_context_set_ctx.
    destruct (step_context it c0) as [[c it0]| | |]; simpl; try done.
    unfold observation; simpl.
    rewrite lookup_app_r by (by rewrite length_alter).
    by rewrite length_alter, Nat.sub_diag.
  - rewrite (advance_unshared _ _ _ _ Hc Ha) by lia. simpl.
    destruct (step_context it (pointee s)) as [[c it0]| | |] eqn:Hs; simpl; try done.
    apply step_context_ctx in Hs as (Hctx & _).
    unfold observation. rewrite Hctx, Hc; simpl.
    by rewrite list_lookup_insert_eq by (by eapply lookup_lt_Some).
Qed.

Lemma observation_local h h' it a :
  ctx it = Some a → h' !! a = h !! a →
  observation h' it = observation h it ∧ deref h' it = deref h it
  ∧ use_count_of h' (ctx it) = use_count_of h (ctx it)
  ∧ next_observation h' it = next_observation h it.
Proof.
  intros Hc Ha. unfold observation, deref, use_count_of. rewrite Hc; simpl. rewrite Ha.
  repeat split. destruct (h !! a) as [s|] eqn:Hs.
  - by rewrite (next_observation_spec h' it a s), (next_observation_spec h it a s).
  - unfold next_observation.
    destruct (advance h' it) as [[h0 it0]| | |] eqn:E1.
    { apply advance_Ok_ctx in E1 as (? & ? & ? & ?); congruence. }
    all: destruct (advance h it) as [[h0 it0]| | |] eqn:E2; try done.
    all: try (apply advance_Ok_ctx in E2 as (? & ? & ? & ?); congruence).
    all: exfalso; revert E1 E2; unfold advance, fillBuffer, use_count_of;
      rewrite Hc; simpl; rewrite Ha, Hs; simpl;
      case_decide; simpl; repeat (first [rewrite Hc | rewrite Ha | rewrite Hs]; simpl); congruence.
Qed.

(** C5 (as amended).  [operator==] returns true exactly when both
    iterators point to the same tensor and either both are at the end or
    neither is and their current coordinates are equal. *)
Theorem op_eq_true_iff h lhs rhs :
  op_eq h lhs rhs = Ok true ↔
  tensor lhs = tensor rhs ∧
  ((isEnd lhs = true ∧ isEnd rhs = true) ∨
   (isEnd lhs = false ∧ isEnd rhs = false ∧
    ∃ l r, deref h lhs = Ok l ∧ deref h rhs = Ok r ∧ l.1 = r.1)).
Proof.
  unfold op_eq. case_bool_decide as Ht; simpl; [|split; [done|by intros [? _]]].
  case_bool_decide as He; simpl.
  - destruct (isEnd lhs) eqn:El; simpl.
    + naive_solver.
    + split.
      * intros H. bind_inv H. bind_inv H. injection H as Heq.
        apply bool_decide_eq_true in Heq. naive_solver.
      * intros (_ & [[? ?]|(_ & _ & l & r & -> & -> & Hlr)]); [done|]. simpl.
        by rewrite bool_decide_eq_true_2.
  - split; [done|]. intros (_ & [[? ?]|(? & ? & _)]); congruence.
Qed.

(** C4.  An iterator that owns its context is copied and the copy is
    advanced.  Then the original shows what it showed before (position,
    batch size, current pair, buffers, iteration state), its next
    [advance()] yields what it would have yielded, the copy works on a
    context of its own, and from there on neither iterator changes, however
    often it is advanced, what the other shows. *)
Theorem copy_then_advance_leaves_original h it h1 cp h2 cp' :
  (0 < use_count_of h (ctx it))%nat →
  const_iterator_copy h it = (h1, cp) →
  pre_increment h1 cp = Ok (h2, cp') →
  observation h2 it = observation h it
  ∧ deref h2 it = deref h it
  ∧ use_count_of h2 (ctx it) = use_count_of h (ctx it)
  ∧ next_observation h2 it = next_observation h it
  ∧ ctx cp' ≠ ctx it
  ∧ (∀ n h3 cp'', advance_n n h2 cp' = Ok (h3, cp'') →
       observation h3 it = observation h it
       ∧ next_observation h3 it = next_observation h it)
  ∧ (∀ n h3 it', advance_n n h2 it = Ok (h3, it') →
       observation h3 cp' = observation h2 cp').
Proof.
  intros Hown Hcopy Hadv. injection Hcopy as <- <-.
  rewrite pre_increment_advance in Hadv.
  destruct (ctx it) as [a|] eqn:Hc; [|simpl in Hown; lia].
  destruct (h !! a) as [s|] eqn:Ha; [|simpl in Hown; rewrite Ha in Hown; simpl in Hown; lia].
  simpl in Hown. rewrite Ha in Hown. simpl in Hown.
  assert (a < length h)%nat as Hlt by (by eapply lookup_lt_Some).
  assert (retain h (Some a) !! a = Some (mkShared (pointee s) (S (use_count s)))) as Ha1.
  { simpl. by rewrite list_lookup_alter_eq, Ha. }
  rewrite (advance_shared _ _ _ _ Hc Ha1) in Hadv by (simpl; lia).
  bind_inv Hadv. bind_inv Hadv. destruct x0 as [c it0]. injection Hadv as <- <-.
  apply step_context_ctx in Hx0 as (Hctx & _).
  rewrite retain_length in Hctx. simpl in Hctx.
  pose proof (release_retain h (Some a)) as Hrr. simpl in Hrr. rewrite Hrr. clear Hrr.
  rewrite <- Hc.
  assert ((h ++ [mkShared c 1%nat]) !! a = h !! a) as Hsame by (by apply lookup_app_l).
  destruct (observation_local h (h ++ [mkShared c 1%nat]) it a Hc Hsame)
    as (Ho & Hd & Hu & Hn).
  split; [done|]. split; [done|]. split; [done|]. split; [done|].
  split; [rewrite Hctx, Hc; intros [= ?]; lia|].
  split.
  - intros n h3 cp'' H.
    pose proof (advance_n_frame _ _ _ _ _ a H) as Hf.
    rewrite Hctx in Hf. specialize (Hf ltac:(intros [= ?]; lia)).
    rewrite length_app in Hf. specialize (Hf ltac:(lia)).
    rewrite Hsame in Hf.
    destruct (observation_local h h3 it a Hc Hf) as (? & _ & _ & ?). done.
  - intros n h3 it' H.
    pose proof (advance_n_frame _ _ _ _ _ (length h) H) as Hf.
    rewrite Hc in Hf. specialize (Hf ltac:(intros [= ?]; lia)).
    rewrite length_app in Hf. simpl in Hf. specialize (Hf ltac:(lia)).
    by destruct (observation_local _ h3 it0 (length h) Hctx Hf) as (? & _).
Qed.

(** ** Packing *)

Lemma stored_at_None coordinate components :
  stored_at coordinate components = None ↔ coordinate ∉ components.*1.
Proof.
  induction components as [|[c v] rest IH]; csimpl.
  - split; [intros _; apply not_elem_of_nil|done].
  - rewrite not_elem_of_cons. case_decide as Hc.
    + split; [done|]. intros [Hne _]. congruence.
    + rewrite IH. split; [intros Hn; split; [congruence|done]|by intros [_ Hn]].
Qed.

Lemma stored_at_elem_of coordinate value components :
  NoDup components.*1 → (coordinate, value) ∈ components →
  stored_at coordinate components = Some value.
Proof.
  induction components as [|[c v] rest IH]; simpl; intros Hnd Hin.
  - by apply elem_of_nil in Hin.
  - apply NoDup_cons in Hnd as [Hc Hnd]. apply elem_of_cons in Hin as [[= -> ->]|Hin].
    + by rewrite decide_True.
    + rewrite decide_False; [by apply IH|]. intros ->. apply Hc.
      apply list_elem_of_fmap. by exists (coordinate, value).
Qed.

Lemma accumulate_stored coordinate c v stored :
  stored_at coordinate (accumulate c v stored) =
  if decide (c = coordinate)
  then Some (from_option (fun w => CType_add w v) v (stored_at coordinate stored))
  else stored_at coordinate stored.
Proof.
  induction stored as [|[c' v'] rest IH]; simpl.
  - by case_decide.
  - destruct (decide (c' = c)) as [->|Hc]; simpl.
    + by destruct (decide (c = coordinate)).
    + destruct (decide (c' = coordinate)) as [->|Hne]; simpl.
      * by rewrite decide_False by congruence.
      * apply IH.
Qed.

Lemma values_at_cons coordinate c v records :
  values_at coordinate ((c, v) :: records) =
  if decide (c = coordinate) then v :: values_at coordinate records
  else values_at coordinate records.
Proof. unfold values_at. rewrite filter_cons. simpl. by case_decide. Qed.

Lemma stored_at_fold coordinate records stored :
  stored_at coordinate (fold_left (fun st r => accumulate r.1 r.2 st) records stored) =
  match stored_at coordinate stored, values_at coordinate records with
  | Some w, vs => Some (sum_from w vs)
  | None, [] => None
  | None, v :: vs => Some (sum_from v vs)
  end.
Proof.
  revert stored. induction records as [|[c v] rest IH]; intros stored; simpl.
  - by destruct (stored_at coordinate stored).
  - rewrite IH, accumulate_stored, values_at_cons.
    case_decide; [|done]. by destruct (stored_at coordinate stored).
Qed.

Lemma stored_at_pack coordinate records :
  stored_at coordinate (pack_components records) =
  match values_at coordinate records with
  | [] => None
  | v :: vs => Some (sum_from v vs)
  end.
Proof. unfold pack_components. by rewrite stored_at_fold. Qed.

Lemma accumulate_keys c v stored :
  (accumulate c v stored).*1 = if decide (c ∈ stored.*1) then stored.*1 else stored.*1 ++ [c].
Proof.
  induction stored as [|[c' v'] rest IH]; csimpl; [done|].
  - destruct (decide (c' = c)) as [->|Hc]; csimpl.
    + rewrite decide_True; [done|apply elem_of_cons; by left].
    + rewrite IH. destruct (decide (c ∈ rest.*1)) as [Hin|Hin].
      * rewrite decide_True; [done|apply elem_of_cons; by right].
      * rewrite decide_False; [done|]. intros [?|?]%elem_of_cons; congruence.
Qed.

Lemma accumulate_well_formed order c v stored :
  length c = order → well_formed order stored → well_formed order (accumulate c v stored).
Proof.
  intros Hlen [Hnd Hall]. split.
  - rewrite accumulate_keys. case_decide; [done|].
    apply NoDup_app. split; [done|]. split; [|apply NoDup_singleton].
    intros x Hx ->%list_elem_of_singleton. done.
  - clear Hnd. induction stored as [|[c' v'] rest IH]; simpl.
    + by apply Forall_singleton.
    + apply Forall_cons in Hall as [Hc Hall]. case_decide; apply Forall_cons; auto.
Qed.

Lemma pack_components_well_formed order records :
  Forall (fun r => length r.1 = order) records → well_formed order (pack_components records).
Proof.
  unfold pack_components. intros Hall.
  assert (well_formed (CType := CType) order []) as Hwf by (split; [apply NoDup_nil_2|done]).
  revert Hwf. generalize (@nil (list Z * CType)). induction Hall as [|[c v] rest Hc Hall IH];
    intros stored Hwf; simpl; [done|].
  apply IH. by apply accumulate_well_formed.
Qed.

Lemma accumulate_fresh c v stored :
  c ∉ stored.*1 → accumulate c v stored = stored ++ [(c, v)].
Proof.
  induction stored as [|[c' v'] rest IH]; simpl; intros Hc; [done|].
  apply not_elem_of_cons in Hc as [Hne Hc]. rewrite decide_False by done. by rewrite IH.
Qed.

(** Records with distinct coordinates are stored as they are. *)
Lemma pack_components_NoDup records : NoDup records.*1 → pack_components records = records.
Proof.
  unfold pack_components. intros Hnd.
  enough (∀ stored, NoDup (stored ++ records).*1 →
            fold_left (fun st r => accumulate r.1 r.2 st) records stored = stored ++ records)
    as Hgen by (by apply (Hgen [])).
  clear Hnd. induction records as [|[c v] rest IH]; intros stored Hnd; simpl.
  - by rewrite app_nil_r.
  - rewrite accumulate_fresh.
    + rewrite IH; rewrite <- app_assoc; done.
    + rewrite fmap_app in Hnd. apply NoDup_app in Hnd as (_ & Hd & _).
      intros Hin. apply (Hd c Hin). simpl. apply elem_of_cons. by left.
Qed.

Section Sums.
Context `{!AddLaws CType}.




End Sums.

(** [setFromComponents] on records of the right arity and type appends
    them to the buffer and changes nothing else but the pack flag. *)
Lemma setFromComponents_Ok t records :
  getComponentType t = type_CType →
  Forall (fun r => length r.1 = getOrder t) records →
  ∃ t', setFromComponents t records = Ok t'
    ∧ bufRecords (coordinateBuffer t') = bufRecords (coordinateBuffer t) ++ records
    ∧ content t' = match records with
                   | [] => content t
                   | _ => content (setNeedsPack true t)
                   end.
Proof.
  intros Hty Hall. revert t Hty Hall.
  induction records as [|[c v] rest IH]; intros t Hty Hall; simpl.
  - exists t. by rewrite app_nil_r.
  - apply Forall_cons in Hall as [Hc Hall]. simpl in Hc.
    rewrite insert_Ok by done. simpl.
    destruct (IH (inserted t c v)) as (t' & Hset & Hrec & Hcon); [done|done|].
    exists t'. split; [done|]. split.
    + rewrite Hrec. simpl. by rewrite <- app_assoc.
    + rewrite Hcon. by destruct rest.
Qed.

(** ** Iterating over the storage *)

Lemma length_concat_uniform (l : list (list Z)) k :
  Forall (fun c => length c = k) l → length (concat l) = (length l * k)%nat.
Proof.
  induction 1 as [|c l Hc _ IH]; simpl; [done|]. rewrite length_app, IH. lia.
Qed.

Lemma slice_concat (l : list (list Z)) k p x rest :
  Forall (fun c => length c = k) l → l !! p = Some x →
  take k (drop (p * k) (concat l ++ rest)) = x.
Proof.
  intros Hall. revert p. induction Hall as [|c l Hc _ IH]; intros p Hp; [done|].
  destruct p as [|p]; simpl in *.
  - injection Hp as ->. rewrite <- app_assoc. by apply take_app_length'.
  - rewrite <- app_assoc. rewrite drop_app_add' by done. by apply IH.
Qed.

Lemma memcpy_from_concat (l : list (list Z)) k p x rest :
  Forall (fun c => length c = k) l → l !! p = Some x →
  memcpy_from (concat l ++ rest) (p * k) k = Ok x.
Proof.
  intros Hall Hp. unfold memcpy_from.
  pose proof (lookup_lt_Some _ _ _ Hp) as Hlt.
  rewrite decide_True.
  - f_equal. by apply slice_concat.
  - rewrite length_app, (length_concat_uniform _ k) by done. nia.
Qed.

Section Kernel.
Variables (st : TensorStorage (CType := CType)) (order cap : nat).
Hypothesis cap_positive : (0 < cap)%nat.
Hypothesis arity : Forall (fun r => length r.1 = order) (stComponents st).

Lemma batch_arity b :
  Forall (fun c => length c = order) (take cap (drop b (stComponents st))).*1.
Proof.
  apply Forall_fmap. apply Forall_take, Forall_drop. done.
Qed.

Lemma batch_length b : (length (take cap (drop b (stComponents st))) ≤ cap)%nat.
Proof. rewrite length_take. lia. Qed.

(** A call of the kernel from the cursor [b], and the read of the first
    record behind it. *)
Lemma step_context_refill it c b :
  iterFunc it = Some shim_iterate → tensorStorage it = st →
  tensorOrder it = order → bufferCapacity it = cap →
  (bufferSize it ≤ S (bufferPos it))%nat →
  (iterCtx c = Some [8; Z.of_nat b] ∨ (iterCtx c = None ∧ b = 0%nat)) →
  length (coordBuffer c) = (order * cap)%nat → length (valBuffer c) = cap →
  ∃ c' it', step_context it c = Ok (c', it')
    ∧ holds_batch st order cap c' (bufferSize it') (bufferPos it') b
    ∧ bufferPos it' = 0%nat.
Proof.
  intros Hf Hst Hord Hcap Hsize Hcur Hlc Hlv.
  set (batch := take cap (drop b (stComponents st))).
  assert (shim_iterate (iterCtx c) (coordBuffer c) (valBuffer c) cap st =
          mkKernelResult (Some [8; Z.of_nat (b + length batch)])
            (concat batch.*1 ++ drop (length (concat batch.*1)) (coordBuffer c))
            (batch.*2 ++ drop (length batch.*2) (valBuffer c))
            (length batch)) as Hk.
  { unfold shim_iterate. destruct Hcur as [->|[-> ->]]; [|done]. by rewrite Nat2Z.id. }
  pose proof (batch_arity b) as Hall. fold batch in Hall.
  pose proof (batch_length b) as Hlen. fold batch in Hlen.
  assert (length (concat batch.*1) = (length batch * order)%nat) as Hcc.
  { rewrite (length_concat_uniform _ order) by done. by rewrite length_fmap. }
  set (coords := concat batch.*1 ++ drop (length (concat batch.*1)) (coordBuffer c)).
  set (vals := batch.*2 ++ drop (length batch.*2) (valBuffer c)).
  assert (length coords = (order * cap)%nat) as Hlc'.
  { unfold coords. rewrite length_app, length_drop, Hcc, Hlc. nia. }
  assert (length vals = cap) as Hlv'.
  { unfold vals. rewrite length_app, length_drop, length_fmap, Hlv. lia. }
  destruct (lookup_lt_is_Some_2 vals 0%nat) as [second Hsecond]; [lia|].
  unfold step_context. cbn -[shim_iterate]. rewrite decide_True by done.
  rewrite Hf. cbn -[shim_iterate].
  rewrite Hst, Hcap, Hk. simpl. rewrite Hord. fold coords vals.
  unfold memcpy_from. rewrite decide_True by (rewrite Hlc'; nia).
  simpl. rewrite Hsecond. simpl. eexists _, _. split; [done|]. split; [|done].
  exists (drop (length (concat batch.*1)) (coordBuffer c)),
         (drop (length batch.*2) (valBuffer c)).
  simpl. fold batch. repeat split; try done.
  - lia.
  - intros [c0 v0] Hv. f_equal.
    + rewrite drop_0. apply (slice_concat batch.*1 order 0%nat); [done|].
      by rewrite list_lookup_fmap, Hv.
    + unfold vals in Hsecond. rewrite lookup_app_l in Hsecond.
      * rewrite list_lookup_fmap, Hv in Hsecond. by injection Hsecond.
      * rewrite length_fmap. by eapply lookup_lt_Some.
Qed.

(** One [advance()] on the iterator's own context takes it from a
    component to the next one. *)
Lemma step_context_next it c b :
  iterFunc it = Some shim_iterate → tensorStorage it = st →
  tensorOrder it = order → bufferCapacity it = cap →
  holds_batch st order cap c (bufferSize it) (bufferPos it) b →
  (bufferPos it < bufferSize it)%nat →
  ∃ c' it' b', step_context it c = Ok (c', it')
    ∧ holds_batch st order cap c' (bufferSize it') (bufferPos it') b'
    ∧ (b' + bufferPos it' = S (b + bufferPos it))%nat.
Proof.
  intros Hf Hst Hord Hcap (restc & restv & Hsize & Hctx & Hcb & Hlc & Hvb & Hlv & _ & _) Hpos.
  simpl in *. set (batch := take cap (drop b (stComponents st))) in *.
  destruct (decide (bufferSize it ≤ S (bufferPos it))%nat) as [Hend|Hin].
  - destruct (step_context_refill it c (b + length batch)) as (c' & it' & Hs & Hb & Hp);
      try done; [by left|].
    exists c', it', (b + length batch)%nat. split; [done|]. split; [done|]. lia.
  - pose proof (batch_arity b) as Hall. fold batch in Hall.
    destruct (lookup_lt_is_Some_2 batch (S (bufferPos it))) as [[c0 v0] Hv]; [lia|].
    unfold step_context. cbn -[Nat.mul]. rewrite decide_False by done. cbn -[Nat.mul].
    rewrite Hord, Hcb.
    rewrite (memcpy_from_concat _ _ _ c0) by (by rewrite ?list_lookup_fmap, ?Hv).
    cbn -[Nat.mul]. rewrite Hvb.
    rewrite (lookup_app_l_Some _ _ _ v0) by (by rewrite list_lookup_fmap, Hv).
    simpl. eexists _, _, b. split; [done|]. split; [|simpl; lia].
    exists restc, restv. simpl. fold batch. rewrite <- Hcb, <- Hvb.
    repeat split; try done.
    + left. lia.
    + intros v Hv'. congruence.
Qed.

Lemma holds_batch_lookup c size pos b :
  holds_batch st order cap c size pos b → (pos < size)%nat →
  stComponents st !! (b + pos)%nat = Some (curVal c).
Proof.
  intros (restc & restv & Hsize & _ & _ & _ & _ & _ & _ & Hcur) Hpos. simpl in *.
  destruct (lookup_lt_is_Some_2 (take cap (drop b (stComponents st))) pos) as [v Hv]; [lia|].
  rewrite (Hcur v Hv). rewrite lookup_take_lt in Hv.
  - by rewrite lookup_drop in Hv.
  - pose proof (batch_length b). lia.
Qed.

Lemma holds_batch_end c size pos b :
  holds_batch st order cap c size pos b → size = 0%nat →
  (length (stComponents st) ≤ b + pos)%nat.
Proof.
  intros (restc & restv & Hsize & _) ->. simpl in *.
  symmetry in Hsize. apply length_zero_iff_nil, take_nil_inv in Hsize as [?|Hd]; [lia|].
  apply drop_nil_inv in Hd. lia.
Qed.

Lemma advance_stands_at h it i :
  stands_at st order cap h it i → (bufferPos it < bufferSize it)%nat →
  ∃ h' it', advance h it = Ok (h', it') ∧ stands_at st order cap h' it' (S i)
    ∧ tensor it' = tensor it.
Proof.
  intros (a & s & b & Hf & Hst & Hord & Hcap & Hc & Ha & Hu & Hb & ->) Hpos.
  destruct (step_context_next it (pointee s) b) as (c' & it' & b' & Hs & Hb' & Hi); try done.
  rewrite (advance_unshared _ _ _ _ Hc Ha) by lia. rewrite Hs. simpl.
  eexists _, _. split; [done|].
  apply step_context_ctx in Hs as (Hc' & Ht' & Hst' & Hord' & Hcap' & Hf').
  split; [|done]. exists a, (mkShared c' (use_count s)), b'.
  rewrite Hf', Hst', Hord', Hcap', Hc'.
  repeat split; try done.
  by rewrite list_lookup_insert_eq by (by eapply lookup_lt_Some).
Qed.

(** The loop over the iterators is the loop over the components that are
    left. *)
Lemma range_for_stands_at {St R} fuel h it end_it i
    (body : value_type → St → Result (Flow St R)) (s : St) :
  stands_at st order cap h it i →
  isEnd end_it = true → tensor end_it = tensor it →
  (length (stComponents st) - i < fuel)%nat →
  range_for fuel h it end_it body s = list_for (drop i (stComponents st)) body s.
Proof.
  revert h it i s. induction fuel as [|fuel IH]; intros h it i s Hat Hend Ht Hfuel; [lia|].
  pose proof Hat as (a & c & b & Hf & Hst & Hord & Hcap & Hc & Ha & Hu & Hb & ->).
  simpl. unfold op_neq, op_eq. rewrite bool_decide_eq_true_2 by done. simpl.
  rewrite Hend. destruct (decide (bufferSize it = 0%nat)) as [Hz|Hnz].
  - unfold isEnd. rewrite (bool_decide_eq_true_2 (bufferSize it = 0%nat)) by done. simpl.
    pose proof (holds_batch_end _ _ _ _ Hb Hz) as Hlen.
    by rewrite drop_ge.
  - assert (bufferPos it < bufferSize it)%nat as Hpos.
    { destruct Hb as (? & ? & _ & _ & _ & _ & _ & _ & [?|[? _]] & _); [done|lia]. }
    unfold isEnd. rewrite (bool_decide_eq_false_2 (bufferSize it = 0%nat)) by done. simpl.
    unfold deref. rewrite Hc. simpl. rewrite Ha. simpl.
    pose proof (holds_batch_lookup _ _ _ _ Hb Hpos) as Hv.
    rewrite (drop_S _ _ _ Hv). simpl.
    destruct (body (curVal (pointee c)) s) as [[s'|r]| | |]; simpl; try done.
    rewrite pre_increment_advance.
    destruct (advance_stands_at h it _ Hat Hpos) as (h' & it' & -> & Hat' & Ht').
    pose proof (lookup_lt_Some _ _ _ Hv) as Hlt.
    simpl. apply IH; [done|done|congruence|lia].
Qed.

End Kernel.

(** [begin()] leaves an iterator on the first component, in a cell of its
    own; [end()] leaves the free store alone. *)
Lemma const_iterator_new_begin h self t :
  Forall (fun r => length r.1 = getOrder t) (stComponents (getStorage t)) →
  ∃ h' it, const_iterator_new h self t false = Ok (h', it)
    ∧ stands_at (getStorage t) (getOrder t) 100 h' it 0 ∧ tensor it = self.
Proof.
  intros Hall. unfold const_iterator_new, make_shared. cbn -[advance Context_new].
  set (c0 := Context_new (getOrder t) 100 None).
  set (it0 := mkIterator self (getStorage t) (getOrder t) 100 0 0 (Some shim_iterate)
                (Some (length h))).
  assert ((h ++ [mkShared c0 1%nat]) !! length h = Some (mkShared c0 1%nat)) as Hcell.
  { rewrite lookup_app_r by lia. by rewrite Nat.sub_diag. }
  rewrite (advance_unshared _ it0 (length h) _ eq_refl Hcell) by (simpl; lia).
  assert (length (coordBuffer c0) = (getOrder t * 100)%nat) as Hlc by apply length_replicate.
  assert (length (valBuffer c0) = 100%nat) as Hlv by apply length_replicate.
  destruct (step_context_refill (getStorage t) (getOrder t) 100 ltac:(lia) Hall it0 c0 0%nat
              eq_refl eq_refl eq_refl eq_refl ltac:(simpl; lia)
              (or_intror (conj eq_refl eq_refl)) Hlc Hlv)
    as (c' & it' & Hs & Hb & Hp).
  cbn -[step_context c0]. rewrite Hs. simpl. eexists _, _. split; [done|].
  apply step_context_ctx in Hs as (Hc' & Ht' & Hst' & Hord' & Hcap' & Hf').
  split; [|done]. exists (length h), (mkShared c' 1%nat), 0%nat.
  rewrite Hf', Hst', Hord', Hcap', Hc'. repeat split; try done.
  apply list_lookup_insert_eq. rewrite length_app. simpl. lia.
Qed.

Lemma list_for_collect (l acc : list value_type) :
  list_for (R := Empty_set) l (fun value out => Ok (Continue (out ++ [value]))) acc =
  Ok (Continue (acc ++ l)).
Proof.
  revert acc. induction l as [|v l IH]; intros acc; simpl.
  - by rewrite app_nil_r.
  - rewrite IH. by rewrite <- app_assoc.
Qed.

Lemma list_for_first coordinate (l : list value_type) :
  list_for l
    (fun value (_ : unit) =>
       if decide (value.1 = coordinate) then Ok (Return value.2) else Ok (Continue tt)) tt =
  Ok (match stored_at coordinate l with
      | Some v => Return v
      | None => Continue tt
      end).
Proof.
  induction l as [|[c v] l IH]; simpl; [done|]. by case_decide.
Qed.

Lemma const_iterator_new_end h self t :
  const_iterator_new h self t true =
  Ok (h, mkIterator self (getStorage t) (getOrder t) 100 0 0 None None).
Proof. done. Qed.

(** Runs the binds of the result monad whose first run is known. *)
Ltac run := cbn [mbind Result_bind mret Result_ret taco_uassert].

(** Iterating a [const] tensor yields the stored components, in order. *)
Lemma iterated_const_storage self t :
  Forall (fun r => length r.1 = getOrder t) (stComponents (getStorage t)) →
  iterated_const self t = Ok (stComponents (getStorage t)).
Proof.
  intros Hall. unfold iterated_const, begin_const, end_const, iterator_const.
  destruct (const_iterator_new_begin [] self t Hall) as (h & it & -> & Hat & Ht). run.
  rewrite const_iterator_new_end. run.
  rewrite (range_for_stands_at (getStorage t) (getOrder t) 100 ltac:(lia) Hall _ _ _ _ 0%nat);
    try done; [|unfold rounds; lia].
  by rewrite drop_0, list_for_collect.
Qed.

(** [at()] on a tensor with no pending stage returns the value of the
    first stored component with the coordinate, or zero. *)
Lemma at_settled t coordinate :
  settled t → getComponentType t = type_CType → length coordinate = getOrder t →
  Forall (fun r => length r.1 = getOrder t) (stComponents (getStorage t)) →
  at_ t coordinate =
  Ok (t, default CType_zero (stored_at coordinate (stComponents (getStorage t)))).
Proof.
  intros Hs Hty Hlen Hall. unfold at_, syncValues.
  rewrite (bool_decide_eq_true_2 (length _ = _)) by done.
  rewrite (bool_decide_eq_true_2 (getComponentType _ = _)) by done. run.
  rewrite (evaluate_settled t Hs). run.
  unfold iterate. rewrite (bool_decide_eq_true_2 (getComponentType _ = _)) by done. run.
  unfold begin_, iterator, syncValues. rewrite (evaluate_settled t Hs). run.
  destruct (const_iterator_new_begin [] 0%nat t Hall) as (h & it & -> & Hat & Ht). run.
  unfold end_, iterator, syncValues. rewrite (evaluate_settled t Hs). run.
  rewrite const_iterator_new_end. run.
  rewrite (range_for_stands_at (getStorage t) (getOrder t) 100 ltac:(lia) Hall _ _ _ _ 0%nat);
    try done; [|unfold rounds; lia].
  rewrite drop_0, list_for_first. run.
  by destruct (stored_at coordinate (stComponents (getStorage t))).
Qed.

(** C3.  For a tensor with no pending stage whose storage is well formed
    (no coordinate twice, every coordinate of the arity of the tensor),
    iterating yields the stored components; [at] returns, for each
    coordinate [iterate] yields, the value yielded with it, and zero for
    every coordinate of the right arity that is not stored. *)
Theorem at_agrees_with_iteration self t :
  settled t → getComponentType t = type_CType →
  well_formed (getOrder t) (stComponents (getStorage t)) →
  ∃ yielded,
    iterated_const self t = Ok yielded
    ∧ yielded = stComponents (getStorage t)
    ∧ (∀ coordinate value, (coordinate, value) ∈ yielded →
         at_ t coordinate = Ok (t, value))
    ∧ (∀ coordinate, length coordinate = getOrder t → coordinate ∉ yielded.*1 →
         at_ t coordinate = Ok (t, CType_zero)).
Proof.
  intros Hs Hty [Hnd Hall]. exists (stComponents (getStorage t)).
  split; [by apply iterated_const_storage|]. split; [done|]. split.
  - intros coordinate value Hin.
    assert (length coordinate = getOrder t) as Hlen.
    { by apply (proj1 (Forall_forall _ _) Hall _ Hin). }
    rewrite at_settled by done. by rewrite (stored_at_elem_of _ value).
  - intros coordinate Hlen Hnot. rewrite at_settled by done.
    by rewrite (proj2 (stored_at_None _ _) Hnot).
Qed.

(** ** Reads and the pending stages *)




(** ** Insertion, packing and reading back *)

(** What [pack()] leaves behind. *)
Lemma pack_Ok t :
  ∃ t', pack t = Ok t'
    ∧ stComponents (getStorage t') = pack_components (bufRecords (coordinateBuffer t))
    ∧ bufRecords (coordinateBuffer t') = []
    ∧ getDimensions t' = getDimensions t
    ∧ getComponentType t' = getComponentType t
    ∧ needsPack t' = false
    ∧ needsCompile t' = needsCompile t
    ∧ (getAssignment t = None →
       needsAssemble t' = needsAssemble t ∧ needsCompute t' = needsCompute t).
Proof.
  unfold pack. eexists. split; [done|].
  destruct t as [[? ? ? ? ? asg ? ? ? ? ? ? ?] ? ? ?]. unfold getAssignment. simpl.
  destruct asg; simpl; repeat split; try done; by intros [=].
Qed.

(** After a pack of records of the right arity into a tensor of the right
    type with no assignment and no other stage pending, [at] reads the
    packed storage. *)
Lemma at_packed t t' coordinate :
  pack t = Ok t' →
  getComponentType t = type_CType →
  Forall (fun r => length r.1 = getOrder t) (bufRecords (coordinateBuffer t)) →
  getAssignment t = None →
  needsCompile t = false → needsAssemble t = false → needsCompute t = false →
  length coordinate = getOrder t →
  at_ t' coordinate =
  Ok (t', default CType_zero
            (stored_at coordinate (pack_components (bufRecords (coordinateBuffer t))))).
Proof.
  intros Hp Hty Hall Hasg Hc Ha Hu Hlen.
  destruct (pack_Ok t) as (t2 & Hp2 & Hst & _ & Hdim & Hty2 & Hf1 & Hf2 & Hf3).
  rewrite Hp in Hp2. injection Hp2 as <-. destruct (Hf3 Hasg) as [Hf4 Hf5].
  assert (getOrder t' = getOrder t) as Hord by (unfold getOrder; by rewrite Hdim).
  rewrite <- Hst. apply at_settled.
  - unfold settled. by rewrite Hf1, Hf2, Hf4, Hf5.
  - by rewrite Hty2.
  - by rewrite Hord.
  - rewrite Hst, Hord. by apply pack_components_well_formed.
Qed.



(** C9.  [tensor(indices) = v] is [insert(indices, v)] and reading
    [tensor(indices)] is [at(indices)]; values assigned one after the other
    to a coordinate that has no record yet add up under [pack()], the first
    is not overwritten by the later ones. *)
Theorem scalar_access_inserts self t indices v vs :
  length indices = getOrder t →
  getComponentType t = type_CType →
  values_at indices (bufRecords (coordinateBuffer t)) = [] →
  assign_scalar self t indices v = insert t indices v
  ∧ read_scalar self t indices = at_ t indices
  ∧ ∃ t1 t2,
      assign_scalars self t indices (v :: vs) = Ok t1 ∧ pack t1 = Ok t2
      ∧ stored_at indices (stComponents (getStorage t2)) = Some (sum_from v vs)
      ∧ (Forall (fun r => length r.1 = getOrder t) (bufRecords (coordinateBuffer t)) →
         getAssignment t = None → needsCompile t = false →
         needsAssemble t = false → needsCompute t = false →
         read_scalar self t2 indices = Ok (t2, sum_from v vs)).
Proof.
  intros Hlen Hty Hnone.
  assert (∀ t0 w, getOrder t0 = getOrder t →
            assign_scalar self t0 indices w = insert t0 indices w) as Hassign.
  { intros t0 w Ho. unfold assign_scalar, Tensor_call.
    rewrite bool_decide_eq_true_2 by congruence. done. }
  assert (∀ t0, getOrder t0 = getOrder t → read_scalar self t0 indices = at_ t0 indices)
    as Hread.
  { intros t0 Ho. unfold read_scalar, Tensor_call.
    rewrite bool_decide_eq_true_2 by congruence. done. }
  split; [by apply Hassign|]. split; [by apply Hread|].
  set (records := (fun w => (indices, w)) <$> (v :: vs)).
  assert (Forall (fun r => length r.1 = getOrder t) records) as Hall.
  { apply Forall_fmap, Forall_forall. by intros. }
  assert (∀ ws t0, getOrder t0 = getOrder t → getComponentType t0 = type_CType →
            assign_scalars self t0 indices ws =
            setFromComponents t0 ((fun w => (indices, w)) <$> ws)) as Hsame.
  { induction ws as [|w ws IH]; intros t0 Ho Ht0; simpl; [done|].
    rewrite Hassign by done. rewrite insert_Ok by congruence. run. by apply IH. }
  destruct (setFromComponents_Ok t records Hty Hall) as (t1 & Hset & Hrec & Hcon).
  destruct (pack_Ok t1) as (t2 & Hp & Hst & _ & Hdim2 & _).
  assert (getOrder t1 = getOrder t ∧ getComponentType t1 = getComponentType t
          ∧ getAssignment t1 = getAssignment t ∧ needsCompile t1 = needsCompile t
          ∧ needsAssemble t1 = needsAssemble t ∧ needsCompute t1 = needsCompute t)
    as (Hord & Hty1 & Hasg1 & Hc1 & Ha1 & Hu1).
  { unfold getOrder, getDimensions, getComponentType, getAssignment, needsCompile,
      needsAssemble, needsCompute. by rewrite Hcon. }
  assert (values_at indices (bufRecords (coordinateBuffer t1)) = v :: vs) as Hvals.
  { rewrite Hrec. unfold values_at in *. rewrite filter_app, fmap_app, Hnone. simpl.
    unfold records. clear. induction (v :: vs) as [|w ws IH]; [done|].
    csimpl. rewrite filter_cons_True by done. csimpl. by rewrite IH. }
  assert (stored_at indices (pack_components (bufRecords (coordinateBuffer t1)))
          = Some (sum_from v vs)) as Hsum by (by rewrite stored_at_pack, Hvals).
  exists t1, t2. split; [by rewrite Hsame|]. split; [done|]. split; [by rewrite Hst|].
  intros Hbuf Hasg Hc Ha Hu.
  rewrite Hread by (unfold getOrder; by rewrite Hdim2).
  rewrite (at_packed t1 t2 indices Hp); rewrite ?Hord, ?Hty1, ?Hasg1, ?Hc1, ?Ha1, ?Hu1;
    try done; [by rewrite Hsum|].
  rewrite Hrec. apply Forall_app. done.
Qed.

(** ** Transposition *)

Lemma index_at_nat {A} (v : list A) (j : nat) : index_at v (Z.of_nat j) = v !! j.
Proof.
  unfold index_at. destruct (Z.ltb_spec (Z.of_nat j) 0) as [?|_]; [lia|]. by rewrite Nat2Z.id.
Qed.

Lemma gather_permute (v : list Z) (modes : list Z) :
  Forall (fun mode => 0 ≤ mode < Z.of_nat (length v)) modes →
  gather v modes = Ok (permute modes v).
Proof.
  induction 1 as [|mode modes Hm _ IH]; simpl; [done|].
  rewrite IH. replace mode with (Z.of_nat (Z.to_nat mode)) by lia. rewrite index_at_nat.
  destruct (lookup_lt_is_Some_2 v (Z.to_nat mode)) as [x ->]; [lia|]. done.
Qed.

Lemma permute_length modes v : length (permute modes v) = length modes.
Proof. unfold permute. by rewrite length_fmap. Qed.

Lemma permutation_in_range (p : list Z) k :
  p ≡ₚ Z.of_nat <$> seq 0 k → Forall (fun mode => 0 ≤ mode < Z.of_nat k) p.
Proof.
  intros ->. apply Forall_fmap, Forall_forall. intros j Hj%elem_of_seq. simpl. lia.
Qed.

(** A permutation of the modes loses nothing of a coordinate. *)
Lemma permute_inj (p : list Z) k (c1 c2 : list Z) :
  p ≡ₚ Z.of_nat <$> seq 0 k → length c1 = k → length c2 = k →
  permute p c1 = permute p c2 → c1 = c2.
Proof.
  intros Hp H1 H2 Heq. apply list_eq. intros j.
  destruct (decide (j < k)%nat) as [Hj|Hj].
  - assert (Z.of_nat j ∈ p) as Hin.
    { rewrite Hp. apply list_elem_of_fmap. exists j. split; [done|]. apply elem_of_seq. lia. }
    apply list_elem_of_lookup_1 in Hin as [q Hq].
    assert (permute p c1 !! q = permute p c2 !! q) as Hlook by (by rewrite Heq).
    unfold permute in Hlook. rewrite !list_lookup_fmap, Hq in Hlook. simpl in Hlook.
    rewrite !index_at_nat in Hlook.
    destruct (lookup_lt_is_Some_2 c1 j) as [x1 Hx1]; [lia|].
    destruct (lookup_lt_is_Some_2 c2 j) as [x2 Hx2]; [lia|].
    rewrite Hx1, Hx2 in *. simpl in Hlook. congruence.
  - rewrite !lookup_ge_None_2 by lia. done.
Qed.

(** The loop of [transpose] inserts the permuted components. *)
Lemma list_for_transpose (p : list Z) k (l : list value_type) newTensor :
  Forall (fun mode => 0 ≤ mode < Z.of_nat k) p →
  Forall (fun r => length r.1 = k) l →
  getComponentType newTensor = type_CType → getOrder newTensor = length p →
  list_for (R := Empty_set) l
    (fun value newTensor =>
       newCoordinate ← gather value.1 p;
       newTensor ← insert newTensor newCoordinate value.2;
       Ok (Continue newTensor))
    newTensor =
  (t' ← setFromComponents newTensor ((fun r => (permute p r.1, r.2)) <$> l);
   Ok (Continue t')).
Proof.
  intros Hp Hall. revert newTensor.
  induction Hall as [|[c v] l Hc _ IH]; intros newTensor Hty Hord; simpl; [done|].
  simpl in Hc. rewrite gather_permute by (by rewrite Hc). run.
  rewrite insert_Ok by (by rewrite ?permute_length). run.
  by apply IH.
Qed.

(** C10.  For a tensor whose storage is well formed and a permutation of
    its modes, [transpose] returns a tensor whose dimensions are the
    permuted dimensions, that is packed (no stage pending, the coordinate
    buffer empty), and that stores, for every component that iterating the
    tensor yields, the same value at the permuted coordinate; [at] returns
    that value there. *)
Theorem transpose_permutes self t name newModeOrdering format :
  well_formed (getOrder t) (stComponents (getStorage t)) →
  newModeOrdering ≡ₚ Z.of_nat <$> seq 0 (getOrder t) →
  ∃ t' yielded,
    transpose self t name newModeOrdering format = Ok t'
    ∧ iterated_const self t = Ok yielded
    ∧ getDimensions t' = permute newModeOrdering (getDimensions t)
    ∧ settled t'
    ∧ bufRecords (coordinateBuffer t') = []
    ∧ stComponents (getStorage t') = (fun r => (permute newModeOrdering r.1, r.2)) <$> yielded
    ∧ ∀ coordinate value, (coordinate, value) ∈ yielded →
        (permute newModeOrdering coordinate, value) ∈ stComponents (getStorage t')
        ∧ at_ t' (permute newModeOrdering coordinate) = Ok (t', value).
Proof.
  intros [Hnd Hall] Hperm.
  pose proof (permutation_in_range _ _ Hperm) as Hrange.
  set (comps := stComponents (getStorage t)) in *.
  set (moved := (fun r : list Z * CType => (permute newModeOrdering r.1, r.2)) <$> comps).
  set (newTensor := Tensor_new name (permute newModeOrdering (getDimensions t)) format).
  assert (getOrder newTensor = length newModeOrdering) as Hord.
  { unfold getOrder, newTensor. simpl. apply permute_length. }
  assert (Forall (fun r => length r.1 = getOrder newTensor) moved) as Hmoved.
  { apply Forall_fmap, Forall_forall. intros r _. simpl. by rewrite permute_length. }
  assert (moved.*1 = permute newModeOrdering <$> comps.*1) as Hkeys.
  { unfold moved. by rewrite <- !list_fmap_compose. }
  assert (NoDup moved.*1) as Hnd'.
  { rewrite Hkeys. apply NoDup_fmap_2_strong; [|done].
    intros x y [[cx vx] [-> Hx]]%list_elem_of_fmap [[cy vy] [-> Hy]]%list_elem_of_fmap Heq.
    apply (permute_inj newModeOrdering (getOrder t)); try done.
    - by apply (proj1 (Forall_forall _ _) Hall _ Hx).
    - by apply (proj1 (Forall_forall _ _) Hall _ Hy). }
  unfold transpose.
  rewrite gather_permute by done. run. fold newTensor.
  unfold begin_const, end_const, iterator_const.
  destruct (const_iterator_new_begin [] self t Hall) as (h & it & -> & Hat & Ht). run.
  rewrite const_iterator_new_end. run.
  rewrite (range_for_stands_at (getStorage t) (getOrder t) 100 ltac:(lia) Hall _ _ _ _ 0%nat);
    try done; [|unfold rounds; lia].
  rewrite drop_0. fold comps.
  rewrite (list_for_transpose _ (getOrder t)) by done. fold moved.
  destruct (setFromComponents_Ok newTensor moved eq_refl Hmoved) as (t1 & Hset & Hrec & Hcon).
  rewrite Hset. run.
  destruct (pack_Ok t1) as (t' & Hp & Hst & Hbuf & Hdim & Hty' & Hf1 & Hf2 & Hf3).
  simpl in Hrec. rewrite Hrec in Hst. rewrite pack_components_NoDup in Hst by done.
  assert (getDimensions t1 = permute newModeOrdering (getDimensions t)
          ∧ getComponentType t1 = type_CType
          ∧ getAssignment t1 = None ∧ needsCompile t1 = false
          ∧ needsAssemble t1 = false ∧ needsCompute t1 = false)
    as (Hdim1 & Hty1 & Hasg1 & Hc1 & Ha1 & Hu1).
  { unfold getDimensions, getComponentType, getAssignment, needsCompile,
      needsAssemble, needsCompute. rewrite Hcon. by destruct moved. }
  destruct (Hf3 Hasg1) as [Hf4 Hf5].
  exists t', comps. split; [done|]. split; [by apply iterated_const_storage|].
  split; [by rewrite Hdim|]. split.
  { unfold settled. by rewrite Hf1, Hf2, Hf4, Hf5. }
  split; [done|]. split; [done|].
  intros coordinate value Hin.
  assert ((permute newModeOrdering coordinate, value) ∈ moved) as Hin'.
  { apply list_elem_of_fmap. by exists (coordinate, value). }
  split; [by rewrite Hst|].
  assert (getOrder t1 = length newModeOrdering) as Hord1.
  { unfold getOrder. rewrite Hdim1. apply permute_length. }
  rewrite (at_packed t1 t' _ Hp); rewrite ?Hrec, ?Hord1; try done.
  - rewrite pack_components_NoDup by done. by rewrite (stored_at_elem_of _ value).
  - by rewrite <- Hord.
  - by rewrite permute_length.
Qed.


(** * Further properties of the code

    Properties of the header beyond the ones the specification states:
    the comparison, the steps and the ownership of iterators, ranges of
    insertions, scalar access, transposition and the arrays of compressed
    matrices. *)

(** ** Comparing iterators *)

Lemma deref_cases h it : (∃ v, deref h it = Ok v) ∨ deref h it = Undefined.
Proof.
  unfold deref. destruct (ctx it) as [a|]; simpl; [|by right].
  destruct (h !! a); simpl; [left; eauto|by right].
Qed.

(** X1.  [operator==] and [operator!=] do not depend on the side an
    iterator stands on, also where the comparison is undefined. *)
Theorem op_eq_symmetric h lhs rhs :
  op_eq h lhs rhs = op_eq h rhs lhs ∧ op_neq h lhs rhs = op_neq h rhs lhs.
Proof.
  assert (op_eq h lhs rhs = op_eq h rhs lhs) as Heq.
  { unfold op_eq.
    rewrite (bool_decide_ext (tensor lhs = tensor rhs) (tensor rhs = tensor lhs)) by done.
    destruct (bool_decide (tensor rhs = tensor lhs)); simpl; [|done].
    rewrite (bool_decide_ext (isEnd lhs = isEnd rhs) (isEnd rhs = isEnd lhs)) by done.
    case_bool_decide as He; simpl; [|done]. rewrite He.
    destruct (isEnd lhs); [done|].
    destruct (deref_cases h lhs) as [[l ->]| ->], (deref_cases h rhs) as [[r ->]| ->];
      simpl; try done.
    by rewrite (bool_decide_ext (l.1 = r.1) (r.1 = l.1)). }
  split; [done|]. unfold op_neq. by rewrite Heq.
Qed.

Lemma op_eq_Ok_true h lhs rhs :
  op_eq h lhs rhs = Ok true →
  tensor lhs = tensor rhs ∧ isEnd lhs = isEnd rhs
  ∧ (isEnd lhs = false → ∃ l r, deref h lhs = Ok l ∧ deref h rhs = Ok r ∧ l.1 = r.1).
Proof.
  unfold op_eq. case_bool_decide as Ht; simpl; [|done].
  case_bool_decide as He; simpl; [|done].
  destruct (isEnd lhs) eqn:El; [done|]. intros H. split; [done|]. split; [done|]. intros _.
  bind_inv H. bind_inv H. injection H as Heq. apply bool_decide_eq_true in Heq. eauto.
Qed.

(** X2.  [operator==] is transitive. *)
Theorem op_eq_transitive h it1 it2 it3 :
  op_eq h it1 it2 = Ok true → op_eq h it2 it3 = Ok true → op_eq h it1 it3 = Ok true.
Proof.
  intros (Ht1 & He1 & Hv1)%op_eq_Ok_true (Ht2 & He2 & Hv2)%op_eq_Ok_true.
  unfold op_eq. rewrite bool_decide_eq_true_2 by congruence. simpl.
  rewrite bool_decide_eq_true_2 by congruence. simpl.
  destruct (isEnd it1) eqn:El; [done|].
  destruct (Hv1 eq_refl) as (l & r & -> & Hr & Hlr).
  destruct (Hv2 ltac:(congruence)) as (r' & s & Hr' & -> & Hrs). simpl.
  rewrite bool_decide_eq_true_2; [done|]. congruence.
Qed.

Lemma op_eq_end h it end_it :
  tensor it = tensor end_it → isEnd end_it = true → op_eq h it end_it = Ok (isEnd it).
Proof.
  intros Ht He. unfold op_eq. rewrite bool_decide_eq_true_2 by done. simpl. rewrite He.
  destruct (isEnd it); simpl; done.
Qed.

(** X3.  Comparing an iterator with an iterator at the end of the same
    tensor reads no context: whatever the free store holds, [it != end]
    is true exactly when [it] is not at the end, on either side of the
    operator. *)
Theorem comparison_with_end_reads_no_context h it end_it :
  tensor it = tensor end_it → isEnd end_it = true →
  op_eq h it end_it = Ok (isEnd it) ∧ op_neq h it end_it = Ok (negb (isEnd it))
  ∧ op_eq h end_it it = Ok (isEnd it) ∧ op_neq h end_it it = Ok (negb (isEnd it)).
Proof.
  intros Ht He.
  pose proof (op_eq_end h it end_it Ht He) as Heq.
  assert (op_eq h end_it it = Ok (isEnd it)) as Heq'.
  { unfold op_eq. rewrite bool_decide_eq_true_2 by done. simpl. rewrite He.
    destruct (isEnd it); simpl; done. }
  unfold op_neq. rewrite Heq, Heq'. done.
Qed.

(** ** The end iterator *)

Lemma advance_null h it : ctx it = None → advance h it = Undefined.
Proof.
  intros Hc. unfold advance, fillBuffer, use_count_of. rewrite Hc. simpl.
  case_decide; simpl; by rewrite Hc.
Qed.

(** X4.  [end()] allocates no context: the iterator it returns is at the
    end with a null context, so that dereferencing it and incrementing it,
    before or after, are undefined. *)
Theorem end_iterator_has_no_context h self t :
  ∃ end_it,
    end_const h self t = Ok (h, end_it)
    ∧ isEnd end_it = true ∧ ctx end_it = None
    ∧ deref h end_it = Undefined
    ∧ pre_increment h end_it = Undefined
    ∧ post_increment h end_it = Undefined.
Proof.
  eexists. unfold end_const, iterator_const. rewrite const_iterator_new_end.
  split; [done|]. split; [done|]. split; [done|]. split; [done|].
  split.
  - rewrite pre_increment_advance. by apply advance_null.
  - unfold post_increment, const_iterator_copy. cbn -[advance]. by rewrite advance_null.
Qed.

(** ** One step of an iterator *)

(** The two ways of [advance()]: in place when the context has one owner,
    on a fresh copy at the end of the free store when it is shared. *)
Lemma advance_Ok_inv h it h' it' :
  advance h it = Ok (h', it') →
  ∃ a s, ctx it = Some a ∧ h !! a = Some s ∧
    (((use_count s ≤ 1)%nat ∧ ∃ c,
        step_context it (pointee s) = Ok (c, it')
        ∧ h' = <[a := mkShared c (use_count s)]> h)
     ∨ ((1 < use_count s)%nat ∧ ∃ c0 c,
        clone_of it (pointee s) = Ok c0
        ∧ step_context (set_ctx (Some (length h)) it) c0 = Ok (c, it')
        ∧ h' = release h (Some a) ++ [mkShared c 1%nat])).
Proof.
  intros H. destruct (advance_Ok_ctx _ _ _ _ H) as (a & s & Hc & Ha).
  exists a, s. split; [done|]. split; [done|].
  destruct (decide (1 < use_count s)%nat) as [Hu|Hu].
  - right. split; [done|].
    rewrite (advance_shared _ _ _ _ Hc Ha Hu) in H.
    bind_inv H. bind_inv H. destruct x0 as [c it0]. injection H as <- <-. eauto.
  - left. split; [lia|].
    rewrite (advance_unshared _ _ _ _ Hc Ha) in H by lia.
    bind_inv H. destruct x as [c it0]. injection H as <- <-. eauto.
Qed.

(** After a step the iterator is at the end or inside its batch, and its
    current pair is the record at its position in the two buffers. *)
Lemma step_context_position it c c' it' :
  step_context it c = Ok (c', it') →
  ((bufferPos it' < bufferSize it')%nat ∨ (bufferSize it' = 0 ∧ bufferPos it' = 0)%nat)
  ∧ memcpy_from (coordBuffer c') (bufferPos it' * tensorOrder it') (tensorOrder it')
      = Ok (curVal c').1
  ∧ valBuffer c' !! bufferPos it' = Some (curVal c').2.
Proof.
  unfold step_context. intros H. bind_inv H. destruct x as [c1 it1].
  bind_inv H. bind_inv H. injection H as <- <-. simpl.
  apply defined_Ok in Hx1.
  case_decide as Hfill.
  - bind_inv Hx. injection Hx as <- <-. simpl in *.
    split; [|done]. destruct (k_count _); [right; done|left; lia].
  - injection Hx as <- <-. simpl in *. split; [|done]. left. lia.
Qed.

(** X5.  After every [advance()] that returns, the iterator is either at
    the end, at position zero, or at a position inside its batch; its
    current pair is the record at that position of its own two buffers;
    the tensor, the storage, the order, the capacity and the kernel it was
    made with are unchanged. *)
Theorem advance_shows_record_at_position h it h' it' :
  advance h it = Ok (h', it') →
  ∃ a s,
    ctx it' = Some a ∧ h' !! a = Some s
    ∧ ((bufferPos it' < bufferSize it')%nat ∨ (isEnd it' = true ∧ bufferPos it' = 0%nat))
    ∧ memcpy_from (coordBuffer (pointee s)) (bufferPos it' * tensorOrder it') (tensorOrder it')
        = Ok (curVal (pointee s)).1
    ∧ valBuffer (pointee s) !! bufferPos it' = Some (curVal (pointee s)).2
    ∧ deref h' it' = Ok (curVal (pointee s))
    ∧ tensor it' = tensor it ∧ tensorStorage it' = tensorStorage it
    ∧ tensorOrder it' = tensorOrder it ∧ bufferCapacity it' = bufferCapacity it
    ∧ iterFunc it' = iterFunc it.
Proof.
  intros H. apply advance_Ok_inv in H as (a & s & Hc & Ha & Hcase).
  assert (a < length h)%nat as Hlt by (by eapply lookup_lt_Some).
  assert (∀ it0 c0 c b,
    step_context it0 c0 = Ok (c, it') → ctx it0 = Some b →
    (∃ n, h' !! b = Some (mkShared c n)) →
    tensor it0 = tensor it → tensorStorage it0 = tensorStorage it →
    tensorOrder it0 = tensorOrder it → bufferCapacity it0 = bufferCapacity it →
    iterFunc it0 = iterFunc it →
    ∃ a s,
      ctx it' = Some a ∧ h' !! a = Some s
      ∧ ((bufferPos it' < bufferSize it')%nat ∨ (isEnd it' = true ∧ bufferPos it' = 0%nat))
      ∧ memcpy_from (coordBuffer (pointee s)) (bufferPos it' * tensorOrder it') (tensorOrder it')
          = Ok (curVal (pointee s)).1
      ∧ valBuffer (pointee s) !! bufferPos it' = Some (curVal (pointee s)).2
      ∧ deref h' it' = Ok (curVal (pointee s))
      ∧ tensor it' = tensor it ∧ tensorStorage it' = tensorStorage it
      ∧ tensorOrder it' = tensorOrder it ∧ bufferCapacity it' = bufferCapacity it
      ∧ iterFunc it' = iterFunc it) as Hstep.
  { intros it0 c0 c b Hs Hb [n Hn] Ht Hst Ho Hcap Hf.
    destruct (step_context_position _ _ _ _ Hs) as (Hpos & Hfirst & Hsecond).
    apply step_context_ctx in Hs as (Hc' & Ht' & Hst' & Ho' & Hcap' & Hf').
    exists b, (mkShared c n). simpl.
    split; [congruence|]. split; [done|]. split.
    { destruct Hpos as [?|[Hz ?]]; [by left|right]. split; [|done].
      unfold isEnd. by apply bool_decide_eq_true_2. }
    split; [done|]. split; [done|]. split.
    { unfold deref. rewrite Hc', Hb. simpl. by rewrite Hn. }
    repeat split; congruence. }
  destruct Hcase as [(Hu & c & Hs & ->)|(Hu & c0 & c & Hcl & Hs & ->)].
  - apply (Hstep it (pointee s) c a); try done.
    exists (use_count s). by apply list_lookup_insert_eq.
  - apply (Hstep (set_ctx (Some (length h)) it) c0 c (length h)); try done.
    exists 1%nat. rewrite lookup_app_r by (by rewrite release_length).
    by rewrite release_length, Nat.sub_diag.
Qed.

(** ** Ownership of the context *)

(** X6.  [advance()] writes to no context that another iterator holds.
    Called on an iterator that owns a context, it leaves the iterator the
    only owner of its context: of the same one when it was the only owner
    before, of a fresh one when the context was shared, and then the
    shared context has one owner less.  The content of every other cell of
    the free store is what it was. *)
Theorem advance_owns_what_it_writes h it h' it' :
  advance h it = Ok (h', it') →
  (0 < use_count_of h (ctx it))%nat →
  use_count_of h' (ctx it') = 1%nat
  ∧ (use_count_of h (ctx it) = 1%nat → ctx it' = ctx it)
  ∧ ((1 < use_count_of h (ctx it))%nat →
       ctx it' = Some (length h)
       ∧ use_count_of h' (ctx it) = pred (use_count_of h (ctx it)))
  ∧ ∀ b, ctx it' ≠ Some b → pointee <$> h' !! b = pointee <$> h !! b.
Proof.
  intros H Hown. apply advance_Ok_inv in H as (a & s & Hc & Ha & Hcase).
  assert (a < length h)%nat as Hlt by (by eapply lookup_lt_Some).
  rewrite Hc in *. simpl in Hown. rewrite Ha in Hown. simpl in Hown.
  cbn [use_count_of]. rewrite Ha. cbn [from_option].
  destruct Hcase as [(Hu & c & Hs & ->)|(Hu & c0 & c & Hcl & Hs & ->)].
  - apply step_context_ctx in Hs as (Hc' & _). rewrite Hc', Hc.
    cbn [use_count_of]. rewrite list_lookup_insert_eq by done. simpl.
    split; [lia|]. split; [done|]. split; [lia|].
    intros b Hb. rewrite list_lookup_insert_ne by congruence. done.
  - apply step_context_ctx in Hs as (Hc' & _). simpl in Hc'. rewrite Hc'.
    cbn [use_count_of].
    rewrite lookup_app_r by (by rewrite release_length).
    rewrite release_length, Nat.sub_diag. simpl.
    split; [done|]. split; [lia|]. split.
    + intros _. split; [done|].
      rewrite lookup_app_l by (by rewrite length_alter).
      by rewrite list_lookup_alter_eq, Ha.
    + intros b Hb. destruct (decide (b < length h)%nat) as [Hbl|Hbl].
      * rewrite lookup_app_l by (by rewrite length_alter).
        destruct (decide (a = b)) as [<-|Hab].
        -- rewrite list_lookup_alter_eq, Ha. done.
        -- by rewrite list_lookup_alter_ne.
      * assert (b ≠ length h) by congruence.
        rewrite !lookup_ge_None_2; [done|lia|].
        rewrite length_app, length_alter. simpl. lia.
Qed.

(** X7.  [it++] returns the iterator as it was: the returned iterator
    shows what [it] showed before the call, and keeps the context, with as
    many owners as before.  As the returned copy shares the context while
    [advance()] runs, [it++] always moves [it] to a context allocated for
    the call. *)
Theorem post_increment_returns_the_old_iterator h it h' it' result :
  post_increment h it = Ok (h', it', result) →
  (0 < use_count_of h (ctx it))%nat →
  result = it
  ∧ deref h' result = deref h it
  ∧ observation h' result = observation h it
  ∧ use_count_of h' (ctx result) = use_count_of h (ctx it)
  ∧ ctx it' = Some (length h) ∧ length h' = S (length h)
  ∧ use_count_of h' (ctx it') = 1%nat.
Proof.
  unfold post_increment, const_iterator_copy. intros H Hown.
  bind_inv H. destruct x as [h0 it0]. injection H as <- <- <-.
  destruct (ctx it) as [a|] eqn:Hc; [|simpl in Hown; lia].
  simpl in Hown.
  destruct (h !! a) as [s|] eqn:Ha; [|simpl in Hown; lia].
  simpl in Hown.
  assert (a < length h)%nat as Hlt by (by eapply lookup_lt_Some).
  assert (retain h (Some a) !! a = Some (mkShared (pointee s) (S (use_count s)))) as Ha1.
  { simpl. by rewrite list_lookup_alter_eq, Ha. }
  rewrite (advance_shared _ _ _ _ Hc Ha1) in Hx by (simpl; lia).
  bind_inv Hx. bind_inv Hx. destruct x0 as [c it1]. injection Hx as <- <-.
  apply step_context_ctx in Hx1 as (Hctx & _).
  rewrite retain_length in Hctx. simpl in Hctx.
  pose proof (release_retain h (Some a)) as Hrr. simpl in Hrr. rewrite Hrr. clear Hrr.
  assert ((h ++ [mkShared c 1%nat]) !! a = h !! a) as Hsame by (by apply lookup_app_l).
  split; [done|].
  unfold deref, observation. rewrite Hc, Hctx. cbn [use_count_of defined mbind Result_bind].
  rewrite Hsame, Ha. simpl.
  split; [done|]. split; [done|]. split; [done|]. split; [done|].
  split; [rewrite length_app; simpl; lia|].
  rewrite lookup_app_r by lia. by rewrite Nat.sub_diag.
Qed.

(** X8.  [++it] on an iterator that is the only owner of its context
    works in place: the iterator keeps the context and remains its only
    owner, nothing is allocated, no other cell of the free store changes,
    and the copy the operator returns leaves no owner behind. *)
Theorem pre_increment_in_place h it h' it' :
  pre_increment h it = Ok (h', it') →
  use_count_of h (ctx it) = 1%nat →
  ctx it' = ctx it ∧ length h' = length h
  ∧ use_count_of h' (ctx it') = 1%nat
  ∧ ∀ b, ctx it ≠ Some b → h' !! b = h !! b.
Proof.
  rewrite pre_increment_advance. intros H Hown.
  apply advance_Ok_inv in H as (a & s & Hc & Ha & Hcase).
  assert (a < length h)%nat as Hlt by (by eapply lookup_lt_Some).
  rewrite Hc in *. simpl in Hown. rewrite Ha in Hown. simpl in Hown.
  destruct Hcase as [(Hu & c & Hs & ->)|(Hu & _)]; [|lia].
  apply step_context_ctx in Hs as (Hc' & _). rewrite Hc', Hc.
  split; [done|]. split; [apply length_insert|]. split.
  - cbn [use_count_of]. by rewrite list_lookup_insert_eq.
  - intros b Hb. apply list_lookup_insert_ne. congruence.
Qed.

(** ** Insertion and the pending records *)

Lemma inserted_shape t coordinate value :
  getOrder (inserted t coordinate value) = getOrder t
  ∧ getComponentType (inserted t coordinate value) = getComponentType t
  ∧ coordinateSize (inserted t coordinate value) = coordinateSize t.
Proof. done. Qed.

(** X9.  [insert] leaves the storage alone: until the next [pack()] the
    inserted record is invisible to every reader that does not
    synchronise, so that a loop over the [const] tensor and [transpose]
    return after the insertion what they returned before it. *)
Theorem pending_records_are_invisible self t coordinate value t' name newModeOrdering format :
  insert t coordinate value = Ok t' →
  needsPack t' = true
  ∧ getStorage t' = getStorage t
  ∧ iterated_const self t' = iterated_const self t
  ∧ transpose self t' name newModeOrdering format =
    transpose self t name newModeOrdering format.
Proof.
  intros H. apply insert_inv in H as (_ & _ & ->).
  split; [done|]. split; [done|]. split; reflexivity.
Qed.

(** The first insertion decides the result of a range that fails. *)
Lemma setFromComponents_cons t r rest :
  setFromComponents t (r :: rest) = t' ← insert t r.1 r.2; setFromComponents t' rest.
Proof. done. Qed.

(** X10.  [setFromComponents] succeeds exactly when every component of the
    range has the arity of the tensor and, unless the range is empty, the
    component type of the tensor is [CType]; otherwise it fails with the
    message of the first [insert] that fails. *)
Theorem setFromComponents_succeeds_iff t components :
  ((∃ t', setFromComponents t components = Ok t') ↔
   Forall (fun r => length r.1 = getOrder t) components
   ∧ (components = [] ∨ getComponentType t = type_CType))
  ∧ ((∃ t', setFromComponents t components = Ok t')
     ∨ setFromComponents t components = Failure [Text "Wrong number of indices"]
     ∨ setFromComponents t components =
         Failure [Text "Cannot insert a value of type '"; TypeName type_CType; Text "' ";
                  Text "into a tensor with component type "; TypeName (getComponentType t)]).
Proof.
  revert t. induction components as [|[c v] rest IH]; intros t.
  - split; [|left; by exists t]. split; [intros _; split; [constructor|by left]|].
    intros _. by exists t.
  - rewrite setFromComponents_cons. simpl.
    destruct (decide (length c = getOrder t)) as [Ha|Ha]; cycle 1.
    { unfold insert. rewrite (bool_decide_eq_false_2 (length c = getOrder t)) by done.
      simpl. split; [|right; by left]. split; [by intros [? ?]|].
      intros [Hall _]. by apply Forall_cons in Hall as [? _]. }
    destruct (decide (getComponentType t = type_CType)) as [Hty|Hty]; cycle 1.
    { unfold insert. rewrite (bool_decide_eq_true_2 (length c = getOrder t)) by done.
      rewrite (bool_decide_eq_false_2 (getComponentType t = type_CType)) by done.
      simpl. split; [|right; by right]. split; [by intros [? ?]|].
      by intros [_ [?|?]]. }
    rewrite insert_Ok by done. simpl.
    destruct (IH (inserted t c v)) as [Hiff Hcases].
    destruct (inserted_shape t c v) as (Ho & Hty' & _).
    rewrite Ho, Hty' in Hiff. rewrite Hty' in Hcases.
    split; [|done]. rewrite Hiff. split.
    + intros [Hall _]. split; [by constructor|by right].
    + intros [Hall _]. apply Forall_cons in Hall as [_ Hall]. split; [done|by right].
Qed.

(** X11.  A [setFromComponents] that succeeds appends the components of
    the range to the pending records, in the order of the range and after
    the records that were pending; the used part of the buffer grows by one
    record size for each of them; the pack flag is raised unless the range
    is empty; storage, shape, type and format are untouched. *)
Theorem setFromComponents_appends t components t' :
  setFromComponents t components = Ok t' →
  bufRecords (coordinateBuffer t') = bufRecords (coordinateBuffer t) ++ components
  ∧ coordinateBufferUsed t' =
      (coordinateBufferUsed t + N.of_nat (length components) * coordinateSize t)%N
  ∧ coordinateSize t' = coordinateSize t
  ∧ needsPack t' = (needsPack t || negb (bool_decide (components = [])))
  ∧ getStorage t' = getStorage t ∧ getDimensions t' = getDimensions t
  ∧ getComponentType t' = getComponentType t ∧ getFormat t' = getFormat t.
Proof.
  revert t. induction components as [|[c v] rest IH]; intros t H.
  - injection H as <-. rewrite app_nil_r, orb_false_r. simpl.
    repeat split. lia.
  - rewrite setFromComponents_cons in H. bind_inv H. simpl in Hx.
    apply insert_inv in Hx as (_ & _ & ->).
    apply IH in H as (Hrec & Hused & Hsize & Hflag & Hst & Hdim & Hty & Hfmt).
    rewrite Hrec, Hused, Hsize, Hflag, Hst, Hdim, Hty, Hfmt. simpl.
    split; [by rewrite <- app_assoc|]. split; [lia|].
    split; [done|]. split; [by rewrite orb_true_r|]. done.
Qed.

(** X12.  Loading a range in two parts is loading it at once; if the
    first part fails the second is not started. *)
Theorem setFromComponents_app t components1 components2 :
  setFromComponents t (components1 ++ components2) =
  t' ← setFromComponents t components1; setFromComponents t' components2.
Proof.
  revert t. induction components1 as [|r rest IH]; intros t; [done|].
  rewrite <- app_comm_cons, !setFromComponents_cons.
  destruct (insert t r.1 r.2) as [t1| | |]; simpl; [|done..].
  apply IH.
Qed.

(** X13.  A coordinate buffer that is exactly full stays exactly full:
    starting from a buffer with no byte to spare (as the buffer of a tensor
    into which nothing was inserted), every insertion of a range finds less
    than one record left and enlarges the buffer by one record, so that
    after [n] insertions the buffer is [n] records larger and full again. *)
Theorem full_buffer_stays_full t components t' :
  setFromComponents t components = Ok t' →
  bufSize (coordinateBuffer t) = coordinateBufferUsed t →
  (coordinateBufferUsed t + N.of_nat (length components) * coordinateSize t
     < 2 ^ size_t_width)%N →
  bufSize (coordinateBuffer t') = coordinateBufferUsed t'
  ∧ bufSize (coordinateBuffer t') =
      (bufSize (coordinateBuffer t) + N.of_nat (length components) * coordinateSize t)%N.
Proof.
  revert t. induction components as [|[c v] rest IH]; intros t H Hfull Hbound.
  - injection H as <-. simpl. split; [done|lia].
  - rewrite setFromComponents_cons in H. bind_inv H. simpl in Hx.
    apply insert_inv in Hx as (_ & _ & ->).
    assert (bufSize (coordinateBuffer (inserted t c v)) =
            (bufSize (coordinateBuffer t) + coordinateSize t)%N) as Hgrow.
    { simpl. rewrite Hfull, size_t_sub_exact by (cbn [length] in Hbound; lia).
      rewrite N.sub_diag. destruct (N.ltb_spec 0 (coordinateSize t)) as [Hpos|Hzero]; [done|].
      lia. }
    apply IH in H as [Hf Hs].
    + split; [done|]. rewrite Hs, Hgrow. simpl. lia.
    + rewrite Hgrow. simpl. lia.
    + simpl. cbn [length] in Hbound. lia.
Qed.

(** ** Scalar access *)

(** X14.  [tensor(indices)] checks the number of indices before
    [ScalarAccess] reaches [insert] or [at]: with a wrong number of indices
    the assignment and the read both fail with the message of
    [operator()], which names the order of the tensor and the indices
    given, and no assignment through [operator()] fails with the bare
    "Wrong number of indices" of [insert]. *)
Theorem scalar_access_checks_arity_first self t indices scalar :
  (length indices ≠ getOrder t →
     assign_scalar self t indices scalar = Failure (wrong_index_count t indices)
     ∧ read_scalar self t indices = Failure (wrong_index_count t indices))
  ∧ assign_scalar self t indices scalar ≠ Failure [Text "Wrong number of indices"]
  ∧ (length indices = getOrder t →
     Tensor_call self t indices = Ok (mkScalarAccess self indices)).
Proof.
  unfold assign_scalar, read_scalar, Tensor_call, wrong_index_count.
  destruct (decide (length indices = getOrder t)) as [Ha|Ha].
  - rewrite bool_decide_eq_true_2 by done. run.
    split; [done|]. split; [|done].
    unfold ScalarAccess_assign, insert. simpl.
    rewrite (bool_decide_eq_true_2 (length _ = _)) by done. run.
    case_bool_decide; run; discriminate.
  - rewrite bool_decide_eq_false_2 by done. run.
    split; [done|]. split; [discriminate|done].
Qed.

(** ** Transposition *)

Lemma gather_out_of_range {A} (v : list A) (modes : list Z) :
  Exists (fun mode => mode < 0 ∨ Z.of_nat (length v) ≤ mode) modes →
  gather v modes = Undefined.
Proof.
  induction 1 as [mode rest Hout|mode rest _ IH]; simpl.
  - assert (index_at v mode = None) as ->; [|done].
    unfold index_at. destruct (Z.ltb_spec mode 0) as [?|Hge]; [done|].
    apply lookup_ge_None_2. lia.
  - destruct (index_at v mode); simpl; [|done]. by rewrite IH.
Qed.

(** X15.  [transpose] does not validate the mode ordering.  A mode that
    is negative or not below the order of the tensor is used as it is to
    index the dimensions, a read outside the vector that no assertion
    guards: the behaviour of the call is undefined. *)
Theorem transpose_mode_out_of_range self t name newModeOrdering format :
  Exists (fun mode => mode < 0 ∨ Z.of_nat (getOrder t) ≤ mode) newModeOrdering →
  transpose self t name newModeOrdering format = Undefined
  ∧ transpose_same_format self t name newModeOrdering = Undefined.
Proof.
  intros Hout. unfold transpose_same_format, transpose.
  rewrite (gather_out_of_range (getDimensions t) newModeOrdering Hout). done.
Qed.

(** ** The arrays of a compressed matrix *)

Lemma compressed_arrays_spec (s : TensorStorage (CType := CType)) r :
  (m ← getModeIndex (stIndex s) 1;
   a0 ← getIndexArray m 0;
   m ← getModeIndex (stIndex s) 1;
   a1 ← getIndexArray m 1;
   _ ← taco_uassert (bool_decide (arrType a0 = Int32)) [ErrorConstant "error::type_mismatch"];
   _ ← taco_uassert (bool_decide (arrType a1 = Int32)) [ErrorConstant "error::type_mismatch"];
   Ok (arrData a0, arrData a1, getValues s)) = Ok r ↔ compressed_arrays s = Some r.
Proof.
  unfold getModeIndex, getIndexArray, compressed_arrays.
  destruct (stIndex s !! 1%nat) as [m|]; simpl; [|done].
  destruct (m !! 0%nat) as [a0|]; simpl; [|done].
  destruct (m !! 1%nat) as [a1|]; simpl; [|done].
  destruct (decide (arrType a0 = Int32)) as [H0|H0], (decide (arrType a1 = Int32)) as [H1|H1];
    rewrite ?(bool_decide_eq_true_2 _ H0), ?(bool_decide_eq_false_2 _ H0),
            ?(bool_decide_eq_true_2 _ H1), ?(bool_decide_eq_false_2 _ H1); simpl.
  - rewrite decide_True by done. split; congruence.
  - rewrite decide_False by (by intros [_ ?]). done.
  - rewrite decide_False by (by intros [? _]). done.
  - rewrite decide_False by (by intros [? _]). done.
Qed.

(** X16.  [getCSRArrays] returns arrays exactly when the format of the
    tensor is CSR and the index of the second mode has a position array
    and a coordinate array, both of type [int]; it then returns these two
    arrays and the value array.  It never reads the index of the first
    mode. *)
Theorem getCSRArrays_Ok_iff t rowptr colidx vals :
  getCSRArrays t = Ok (rowptr, colidx, vals) ↔
  getFormat t = CSR ∧
  ∃ m rowptrArr colidxArr,
    stIndex (getStorage t) !! 1%nat = Some m
    ∧ m !! 0%nat = Some rowptrArr ∧ m !! 1%nat = Some colidxArr
    ∧ arrType rowptrArr = Int32 ∧ arrType colidxArr = Int32
    ∧ rowptr = arrData rowptrArr ∧ colidx = arrData colidxArr
    ∧ vals = getValues (getStorage t).
Proof.
  unfold getCSRArrays. case_bool_decide as Hf; run; cycle 1.
  { split; [done|]. by intros [? _]. }
  rewrite compressed_arrays_spec. unfold compressed_arrays.
  split.
  - intros H. split; [done|].
    destruct (stIndex (getStorage t) !! 1%nat) as [m|]; simpl in H; [|done].
    destruct (m !! 0%nat) as [a0|] eqn:E0; simpl in H; [|done].
    destruct (m !! 1%nat) as [a1|] eqn:E1; simpl in H; [|done].
    case_decide as Hty; [|done]. destruct Hty. injection H as <- <- <-.
    exists m, a0, a1. done.
  - intros (_ & m & a0 & a1 & -> & E0 & E1 & H0 & H1 & -> & -> & ->). simpl.
    rewrite E0, E1. simpl. by rewrite decide_True.
Qed.

(** X17.  [getCSCArrays] fails on a tensor whose format is not CSC with a
    message that names the tensor and the CSC format.  It reads the same
    places as [getCSRArrays], the two arrays of the index of the second
    mode and the values: on two tensors with the same storage, one in CSR
    and one in CSC, the two functions return the same arrays.  On one and
    the same tensor at most one of them returns. *)
Theorem getCSCArrays_reads_the_second_mode t t' r :
  (getFormat t ≠ CSC →
     getCSCArrays t =
       Failure [Text "The tensor "; TensorName (getName t);
                Text " is not defined in the CSC format"])
  ∧ (getFormat t = CSC → getFormat t' = CSR → getStorage t = getStorage t' →
     getCSCArrays t = getCSRArrays t')
  ∧ (getCSCArrays t = Ok r ↔ getFormat t = CSC ∧ compressed_arrays (getStorage t) = Some r)
  ∧ (getCSCArrays t = Ok r → getCSRArrays t =
       Failure [Text "The tensor "; TensorName (getName t);
                Text " is not defined in the CSR format"])
  ∧ (getCSRArrays t = Ok r → getCSCArrays t =
       Failure [Text "The tensor "; TensorName (getName t);
                Text " is not defined in the CSC format"]).
Proof.
  assert (CSC ≠ CSR) as Hne by discriminate.
  assert (getCSCArrays t = Ok r ↔ getFormat t = CSC ∧ compressed_arrays (getStorage t) = Some r)
    as Hcsc.
  { unfold getCSCArrays. case_bool_decide as Hf; run.
    - rewrite compressed_arrays_spec. split; [by split|by intros [_ ?]].
    - split; [done|]. by intros [? _]. }
  split; [|split; [|split; [done|split]]].
  - intros Hf. unfold getCSCArrays. rewrite bool_decide_eq_false_2 by done. done.
  - intros Hf Hf' Hst. unfold getCSCArrays, getCSRArrays.
    rewrite !bool_decide_eq_true_2 by done. by rewrite Hst.
  - intros [Hf _]%Hcsc. unfold getCSRArrays.
    rewrite bool_decide_eq_false_2 by congruence. done.
  - intros H. unfold getCSRArrays in H. case_bool_decide as Hf; [|done].
    unfold getCSCArrays. rewrite bool_decide_eq_false_2 by congruence. done.
Qed.

(** ** Iterating over any storage *)

(** X18.  Iteration and [at] do not depend on the storage being the
    result of a [pack()]: whatever the number of the stored components
    (the buffer of the iterator holds 100 of them at a time) and whether
    or not a coordinate is stored twice, a loop over the [const] tensor
    yields every stored component once, in the order of the storage, and
    [at] returns the value of the first stored component with the
    coordinate, or zero when there is none. *)
Theorem iteration_yields_every_component self t :
  Forall (fun r => length r.1 = getOrder t) (stComponents (getStorage t)) →
  iterated_const self t = Ok (stComponents (getStorage t))
  ∧ (settled t → getComponentType t = type_CType →
     ∀ coordinate, length coordinate = getOrder t →
       at_ t coordinate =
       Ok (t, default CType_zero (stored_at coordinate (stComponents (getStorage t))))).
Proof.
  intros Hall. split.
  - by apply iterated_const_storage.
  - intros Hs Hty coordinate Hlen. by apply at_settled.
Qed.

(** X19.  [begin()] equals [end()] exactly when the storage is empty;
    when it is not, [begin()] shows the first stored component. *)
Theorem begin_is_end_iff_empty h self t :
  Forall (fun r => length r.1 = getOrder t) (stComponents (getStorage t)) →
  ∃ h' it end_it,
    begin_const h self t = Ok (h', it) ∧ end_const h' self t = Ok (h', end_it)
    ∧ op_eq h' it end_it = Ok (bool_decide (stComponents (getStorage t) = []))
    ∧ (∀ value rest, stComponents (getStorage t) = value :: rest → deref h' it = Ok value).
Proof.
  intros Hall. unfold begin_const, end_const, iterator_const.
  destruct (const_iterator_new_begin h self t Hall) as (h' & it & Hb & Hat & Ht).
  exists h', it. eexists. split; [done|]. rewrite const_iterator_new_end.
  split; [done|].
  destruct Hat as (a & s & b & _ & _ & _ & _ & Hc & Ha & _ & Hbatch & Hi).
  assert (b = 0%nat ∧ bufferPos it = 0%nat) as [-> Hpos] by lia.
  destruct Hbatch as (restc & restv & Hsize & _ & _ & _ & _ & _ & _ & Hcur).
  rewrite drop_0 in Hsize, Hcur. split.
  - rewrite op_eq_end by done. f_equal. unfold isEnd. rewrite Hsize.
    destruct (stComponents (getStorage t)); [done|].
    rewrite bool_decide_eq_false_2 by (simpl; lia). by rewrite bool_decide_eq_false_2.
  - intros value rest Hst. rewrite Hst, Hpos in Hcur.
    unfold deref. rewrite Hc. simpl. rewrite Ha. simpl. f_equal. by apply Hcur.
Qed.

(** An iterator that stands at a stored component is inside its batch and
    shows that component; one that stands behind the last is at the end. *)
Lemma stands_at_inside st order cap h it i value :
  (0 < cap)%nat → Forall (fun r => length r.1 = order) (stComponents st) →
  stands_at st order cap h it i → stComponents st !! i = Some value →
  (bufferPos it < bufferSize it)%nat ∧ deref h it = Ok value.
Proof.
  intros Hcap Hall (a & s & b & _ & _ & _ & _ & Hc & Ha & _ & Hb & ->) Hv.
  assert (bufferPos it < bufferSize it)%nat as Hpos.
  { destruct (decide (bufferSize it = 0%nat)) as [Hz|Hz].
    - pose proof (holds_batch_end st order cap Hcap _ _ _ _ Hb Hz).
      apply lookup_lt_Some in Hv. lia.
    - destruct Hb as (? & ? & _ & _ & _ & _ & _ & _ & [?|[? _]] & _); [done|lia]. }
  split; [done|].
  pose proof (holds_batch_lookup st order cap Hcap _ _ _ _ Hb Hpos) as Hcur.
  unfold deref. rewrite Hc. simpl. rewrite Ha. simpl. congruence.
Qed.

Lemma stands_at_behind st order cap h it i :
  (0 < cap)%nat → Forall (fun r => length r.1 = order) (stComponents st) →
  stands_at st order cap h it i → (length (stComponents st) ≤ i)%nat →
  isEnd it = true.
Proof.
  intros Hcap Hall (a & s & b & _ & _ & _ & _ & Hc & Ha & _ & Hb & ->) Hlen.
  unfold isEnd. apply bool_decide_eq_true_2.
  destruct (decide (bufferSize it = 0%nat)) as [Hz|Hz]; [done|].
  assert (bufferPos it < bufferSize it)%nat as Hpos.
  { destruct Hb as (? & ? & _ & _ & _ & _ & _ & _ & [?|[? _]] & _); [done|lia]. }
  pose proof (holds_batch_lookup st order cap Hcap _ _ _ _ Hb Hpos) as Hcur.
  apply lookup_lt_Some in Hcur. lia.
Qed.

Lemma advance_n_stands_at st order cap n h it i :
  (0 < cap)%nat → Forall (fun r => length r.1 = order) (stComponents st) →
  stands_at st order cap h it i → (i + n ≤ length (stComponents st))%nat →
  ∃ h' it', advance_n n h it = Ok (h', it') ∧ stands_at st order cap h' it' (i + n).
Proof.
  intros Hcap Hall. revert h it i. induction n as [|n IH]; intros h it i Hat Hlen.
  - exists h, it. by rewrite Nat.add_0_r.
  - destruct (lookup_lt_is_Some_2 (stComponents st) i) as [v Hv]; [lia|].
    destruct (stands_at_inside _ _ _ _ _ _ _ Hcap Hall Hat Hv) as [Hpos _].
    destruct (advance_stands_at st order cap Hcap Hall h it i Hat Hpos)
      as (h1 & it1 & Hadv & Hat1 & _).
    destruct (IH h1 it1 (S i) Hat1 ltac:(lia)) as (h' & it' & Hn & Hat').
    exists h', it'. simpl. rewrite pre_increment_advance, Hadv. simpl.
    split; [done|]. by replace (i + S n)%nat with (S i + n)%nat by lia.
Qed.

(** X20.  Stepping by hand walks the storage: [begin()] followed by [n]
    times [++it] shows the stored component number [n], also when the
    steps cross the end of a batch of 100, and after as many steps as
    there are stored components the iterator is at the end. *)
Theorem increments_walk_the_storage h self t n :
  Forall (fun r => length r.1 = getOrder t) (stComponents (getStorage t)) →
  (n ≤ length (stComponents (getStorage t)))%nat →
  ∃ h0 it0 h' it',
    begin_const h self t = Ok (h0, it0) ∧ advance_n n h0 it0 = Ok (h', it')
    ∧ isEnd it' = bool_decide (n = length (stComponents (getStorage t)))
    ∧ ∀ value, stComponents (getStorage t) !! n = Some value → deref h' it' = Ok value.
Proof.
  intros Hall Hn. unfold begin_const, iterator_const.
  destruct (const_iterator_new_begin h self t Hall) as (h0 & it0 & Hb & Hat & _).
  destruct (advance_n_stands_at (getStorage t) (getOrder t) 100 n h0 it0 0%nat ltac:(lia) Hall Hat Hn)
    as (h' & it' & Hadv & Hat').
  exists h0, it0, h', it'. split; [done|]. split; [done|]. simpl in Hat'. split.
  - case_bool_decide as Hlen.
    + apply (stands_at_behind (getStorage t) (getOrder t) 100 h' it' n ltac:(lia) Hall Hat'). lia.
    + destruct (lookup_lt_is_Some_2 (stComponents (getStorage t)) n) as [v Hv]; [lia|].
      destruct (stands_at_inside (getStorage t) (getOrder t) 100 h' it' n v ltac:(lia) Hall Hat' Hv)
        as [Hpos _].
      unfold isEnd. apply bool_decide_eq_false_2. lia.
  - intros value Hv.
    by destruct (stands_at_inside (getStorage t) (getOrder t) 100 h' it' n value ltac:(lia) Hall
                  Hat' Hv) as [_ Hd].
Qed.

(** ** A copy that is advanced *)

(** The step of [advance()] does not read the current pair. *)
Lemma step_context_curVal it (c : Context (CType := CType)) v :
  step_context it (mkContext (coordBuffer c) (valBuffer c) v (iterCtx c)) = step_context it c.
Proof.
  unfold step_context. simpl. case_decide; simpl; [|done].
  by destruct (iterFunc it).
Qed.

(** The clone of a context that holds a batch of the generated kernel
    differs from it in the current pair only. *)
Lemma clone_of_holds_batch st order cap it (c : Context (CType := CType)) size pos b :
  holds_batch st order cap c size pos b →
  tensorOrder it = order → bufferCapacity it = cap →
  clone_of it c =
  Ok (mkContext (coordBuffer c) (valBuffer c) (replicate order 0, CType_zero) (iterCtx c)).
Proof.
  intros (restc & restv & _ & Hctx & _ & Hlc & _ & Hlv & _) Hord Hcap. simpl in *.
  unfold clone_of, memcpy_from. rewrite Hctx, Hord, Hcap. simpl.
  rewrite !decide_True by (simpl; lia). simpl.
  rewrite !drop_0. by rewrite !take_ge by lia.
Qed.

(** [advance()] on an iterator whose context is shared: the iterator moves
    to a context of its own and stands at the next component. *)
Lemma advance_shared_stands_at st order cap h it a s b :
  (0 < cap)%nat → Forall (fun r => length r.1 = order) (stComponents st) →
  iterFunc it = Some shim_iterate → tensorStorage it = st →
  tensorOrder it = order → bufferCapacity it = cap →
  ctx it = Some a → h !! a = Some s → (1 < use_count s)%nat →
  holds_batch st order cap (pointee s) (bufferSize it) (bufferPos it) b →
  (bufferPos it < bufferSize it)%nat →
  ∃ c it', advance h it = Ok (release h (Some a) ++ [mkShared c 1%nat], it')
    ∧ stands_at st order cap (release h (Some a) ++ [mkShared c 1%nat]) it'
        (S (b + bufferPos it))
    ∧ ctx it' = Some (length h).
Proof.
  intros Hcp Hall Hf Hst Hord Hcap Hc Ha Hu Hb Hpos.
  rewrite (advance_shared _ _ _ _ Hc Ha Hu).
  rewrite (clone_of_holds_batch _ _ _ _ _ _ _ _ Hb Hord Hcap). run.
  rewrite step_context_curVal, step_context_set_ctx.
  destruct (step_context_next st order cap Hcp Hall it (pointee s) b) as (c' & it' & b' & Hs & Hb' & Hi);
    try done.
  rewrite Hs. run. exists c', (set_ctx (Some (length h)) it'). split; [done|].
  apply step_context_ctx in Hs as (_ & _ & Hst' & Hord' & Hcap' & Hf').
  split; [|done]. exists (length h), (mkShared c' 1%nat), b'. simpl.
  rewrite Hf', Hst', Hord', Hcap'. repeat split; try done.
  rewrite lookup_app_r by (by rewrite length_alter).
  by rewrite length_alter, Nat.sub_diag.
Qed.

(** X21.  A copy continues from where the original stands, and the two go
    their own ways: when [begin()] has been advanced [n] times, is copied,
    and the copy is advanced [m] times, the copy shows the stored
    component number [n + m] (or is at the end when there is none), while
    the original still shows component number [n]. *)
Theorem copy_continues_from_the_original h self t n m :
  Forall (fun r => length r.1 = getOrder t) (stComponents (getStorage t)) →
  (n + m ≤ length (stComponents (getStorage t)))%nat →
  ∃ h0 it0 h1 it h2 cp h3 cp',
    begin_const h self t = Ok (h0, it0) ∧ advance_n n h0 it0 = Ok (h1, it)
    ∧ const_iterator_copy h1 it = (h2, cp)
    ∧ advance_n m h2 cp = Ok (h3, cp')
    ∧ (∀ value, stComponents (getStorage t) !! (n + m)%nat = Some value →
         deref h3 cp' = Ok value)
    ∧ ((n + m)%nat = length (stComponents (getStorage t)) → isEnd cp' = true)
    ∧ (∀ value, stComponents (getStorage t) !! n = Some value → deref h3 it = Ok value).
Proof.
  intros Hall Hn. unfold begin_const, iterator_const.
  set (st := getStorage t) in *. set (order := getOrder t) in *.
  destruct (const_iterator_new_begin h self t Hall) as (h0 & it0 & Hb & Hat0 & _).
  fold st order in Hat0.
  destruct (advance_n_stands_at st order 100 n h0 it0 0%nat ltac:(lia) Hall Hat0 ltac:(lia))
    as (h1 & it & Hadv & Hat).
  simpl in Hat. exists h0, it0, h1, it. unfold const_iterator_copy.
  destruct m as [|m].
  - exists (retain h1 (ctx it)), it, (retain h1 (ctx it)), it.
    split; [done|]. split; [done|]. split; [done|]. split; [done|].
    assert (∀ value, stComponents st !! n = Some value →
              deref (retain h1 (ctx it)) it = Ok value) as Hd.
    { intros value Hv.
      destruct (stands_at_inside st order 100 h1 it n value ltac:(lia) Hall Hat Hv) as [_ Hd].
      revert Hd. unfold deref. destruct (ctx it) as [a|]; simpl; [|done].
      rewrite list_lookup_alter_eq. by destruct (h1 !! a). }
    rewrite Nat.add_0_r. split; [done|]. split; [|done].
    intros Hend. apply (stands_at_behind st order 100 h1 it n ltac:(lia) Hall Hat). lia.
  - destruct (lookup_lt_is_Some_2 (stComponents st) n) as [v Hv]; [lia|].
    destruct (stands_at_inside st order 100 h1 it n v ltac:(lia) Hall Hat Hv) as [Hpos Hd].
    destruct Hat as (a & s & b & Hf & Hst & Hord & Hcap & Hc & Ha & Hu & Hbatch & Hi).
    assert (a < length h1)%nat as Hlt by (by eapply lookup_lt_Some).
    set (h2 := retain h1 (ctx it)).
    assert (h2 !! a = Some (mkShared (pointee s) (S (use_count s)))) as Ha2.
    { unfold h2. rewrite Hc. simpl. by rewrite list_lookup_alter_eq, Ha. }
    destruct (advance_shared_stands_at st order 100 h2 it a _ b ltac:(lia) Hall Hf Hst Hord Hcap
                Hc Ha2 ltac:(simpl; lia) Hbatch Hpos) as (c & cp1 & Hadv1 & Hat1 & Hc1).
    assert (release h2 (Some a) = h1) as Hrel.
    { unfold h2. rewrite Hc. apply release_retain. }
    rewrite Hrel in Hadv1, Hat1.
    assert (length h2 = length h1) as Hlen2 by apply retain_length.
    rewrite Hlen2 in Hc1. rewrite <- Hi in Hat1.
    destruct (advance_n_stands_at st order 100 m _ cp1 (S n) ltac:(lia) Hall Hat1 ltac:(lia))
      as (h3 & cp' & Hadvm & Hat').
    exists h2, it, h3, cp'. split; [done|]. split; [done|]. split; [done|].
    split.
    { cbn [advance_n]. rewrite pre_increment_advance, Hadv1. by run. }
    replace (n + S m)%nat with (S n + m)%nat by lia.
    split.
    { intros value Hval.
      by destruct (stands_at_inside st order 100 h3 cp' _ value ltac:(lia) Hall Hat' Hval). }
    split.
    { intros Hend.
      apply (stands_at_behind st order 100 h3 cp' _ ltac:(lia) Hall Hat'). lia. }
    intros value Hval. assert (value = v) as -> by congruence.
    assert (h3 !! a = (h1 ++ [mkShared c 1%nat]) !! a) as Hframe.
    { apply (advance_n_frame m _ cp1 h3 cp' a Hadvm).
      - rewrite Hc1. intros [= ?]. lia.
      - rewrite length_app. lia. }
    rewrite lookup_app_l in Hframe by done.
    revert Hd. unfold deref. rewrite Hc. simpl. by rewrite Hframe.
Qed.

End Properties.

(** * The properties on concrete tensors

    Each theorem above that has a hypothesis is applied here to the
    tensors and iterators of the concrete instantiation, and each claim of
    the specification that the code does not satisfy is evaluated at an
    input that shows it. *)





(** C3 on [packedT]. *)
Lemma at_agrees_with_iteration_witness :
  ∃ yielded,
    iterated_const 0 packedT = Ok yielded
    ∧ yielded = stComponents (getStorage packedT)
    ∧ (∀ coordinate value, (coordinate, value) ∈ yielded →
         at_ packedT coordinate = Ok (packedT, value))
    ∧ (∀ coordinate, length coordinate = getOrder packedT → coordinate ∉ yielded.*1 →
         at_ packedT coordinate = Ok (packedT, CType_zero)).
Proof.
  apply (at_agrees_with_iteration 0 packedT).
  - repeat split.
  - reflexivity.
  - split.
    + compute_done.
    + repeat constructor.
Defined.

(** C4 on [packedT.begin()], its copy and the copy after [++]. *)
Lemma copy_then_advance_witness :
  (0 < use_count_of begunT.1 (ctx begunT.2))%nat
  ∧ const_iterator_copy begunT.1 begunT.2 = (copiedT.1, copiedT.2)
  ∧ pre_increment copiedT.1 copiedT.2 = Ok (advancedT.1, advancedT.2)
  ∧ observation advancedT.1 begunT.2 = observation begunT.1 begunT.2
  ∧ deref advancedT.1 begunT.2 = deref begunT.1 begunT.2
  ∧ next_observation advancedT.1 begunT.2 = next_observation begunT.1 begunT.2
  ∧ ctx advancedT.2 ≠ ctx begunT.2.
Proof.
  assert (0 < use_count_of begunT.1 (ctx begunT.2))%nat as H1 by (vm_compute; lia).
  assert (const_iterator_copy begunT.1 begunT.2 = (copiedT.1, copiedT.2)) as H2
    by (vm_compute; reflexivity).
  assert (pre_increment copiedT.1 copiedT.2 = Ok (advancedT.1, advancedT.2)) as H3
    by (vm_compute; reflexivity).
  destruct (copy_then_advance_leaves_original _ _ _ _ _ _ H1 H2 H3)
    as (Ho & Hd & _ & Hn & Hc & _).
  split; [exact H1|]. split; [exact H2|]. split; [exact H3|].
  split; [exact Ho|]. split; [exact Hd|]. split; [exact Hn|exact Hc].
Defined.

(** C5 on [packedT.begin()]: an iterator equals itself. *)
Lemma op_eq_true_iff_witness : op_eq begunT.1 begunT.2 begunT.2 = Ok true.
Proof.
  apply (proj2 (op_eq_true_iff begunT.1 begunT.2 begunT.2)).
  split; [reflexivity|]. right. split; [reflexivity|]. split; [reflexivity|].
  exists ([0; 1], 15), ([0; 1], 15). repeat split; vm_compute; reflexivity.
Defined.

(** The claim C5 fails in both directions: the [end()] iterators of two
    tensors are both at the end and compare unequal; an iterator advanced
    past the last component and a fresh [begin()] of the same tensor point
    to the same tensor and hold the same current coordinate, and compare
    unequal. *)
Lemma iterator_equality_counterexample :
  (isEnd (end_of 0 packedT) = true ∧ isEnd (end_of 1 singleT) = true
   ∧ op_eq [] (end_of 0 packedT) (end_of 1 singleT) = Ok false)
  ∧ (tensor exhaustedS.2 = tensor freshS.2
     ∧ deref freshS.1 exhaustedS.2 = Ok ([0; 1], 5)
     ∧ deref freshS.1 freshS.2 = Ok ([0; 1], 5)
     ∧ op_eq freshS.1 exhaustedS.2 freshS.2 = Ok false).
Proof. repeat split; vm_compute; reflexivity. Qed.

(** C6 on the first insertion into [matrixA]. *)
Lemma insert_grows_by_one_record_witness :
  insert matrixA [0; 1] 5 = Ok (inserted matrixA [0; 1] 5)
  ∧ bufSize (coordinateBuffer (inserted matrixA [0; 1] 5)) = 12%N
  ∧ N.le (bufSize (coordinateBuffer matrixA))
         (bufSize (coordinateBuffer (inserted matrixA [0; 1] 5))).
Proof.
  assert (insert matrixA [0; 1] 5 = Ok (inserted matrixA [0; 1] 5)) as H by reflexivity.
  destruct (insert_grows_by_one_record matrixA [0; 1] 5 _ H) as (Hsize & Hle & _).
  split; [exact H|]. split; [exact Hsize|exact Hle].
Defined.

(** The claim C6 fails: three insertions take the buffer from 0 to 12, 24
    and 36 bytes, and no ratio above one bounds the growth of every full
    buffer from below. *)
Lemma coordinate_buffer_grows_by_addition :
  (t1 ← insert matrixA [0; 0] 1;
   t2 ← insert t1 [0; 1] 2;
   t3 ← insert t2 [1; 1] 3;
   Ok (bufSize (coordinateBuffer t1), bufSize (coordinateBuffer t2),
       bufSize (coordinateBuffer t3))) = Ok (12%N, 24%N, 36%N)
  ∧ ¬ grows_geometrically (CType := Z).
Proof.
  split; [vm_compute; reflexivity|].
  intros (p & q & [Hq Hpq] & Hgrow).
  assert (size_t_sub (12 * (q + 1)) (12 * (q + 1)) = 0%N) as Hsub.
  { unfold size_t_sub. rewrite N.add_comm, N.add_sub. apply N.Div0.mod_same. }
  specialize (Hgrow (full_buffer (12 * (q + 1))) [0; 0] 0 _
                (insert_Ok (full_buffer (12 * (q + 1))) [0; 0] 0 eq_refl eq_refl)).
  cbn [inserted full_buffer setNeedsPack withContent coordinateBuffer coordinateBufferUsed
         coordinateSize bufSize] in Hgrow.
  rewrite Hsub in Hgrow. change (0 <? 12)%N with true in Hgrow. cbn iota in Hgrow.
  specialize (Hgrow ltac:(lia)). nia.
Qed.

(** C7 on [matrixA], a 2x3 matrix of [int], and [matrixD], one of
    [double]. *)
Lemma contract_violations_fail_witness :
  insert matrixA [7] 1 = Failure [Text "Wrong number of indices"]
  ∧ insert matrixD [0; 1] 1 =
      Failure [Text "Cannot insert a value of type '"; TypeName Int32; Text "' ";
               Text "into a tensor with component type "; TypeName Float64]
  ∧ getCSRArrays cubeB =
      Failure [Text "The tensor "; TensorName "B"; Text " is not defined in the CSR format"].
Proof.
  destruct (contract_violations_fail matrixA [7] 1) as (Harity & _ & _).
  destruct (contract_violations_fail matrixD [0; 1] 1) as (_ & Htype & _).
  destruct (contract_violations_fail cubeB [] 0) as (_ & _ & Hformat).
  split; [|split].
  - apply Harity. vm_compute. lia.
  - apply Htype; [reflexivity|]. vm_compute. discriminate.
  - apply Hformat. vm_compute. discriminate.
Defined.

(** The claim C7 fails for the arity: the message is the same text for a
    matrix given one index and for an order-3 tensor given four, and names
    neither the expected nor the actual number. *)
Lemma arity_failure_names_no_number :
  insert matrixA [7] 1 = Failure [Text "Wrong number of indices"]
  ∧ insert cubeB [7; 8; 9; 10] 1 = Failure [Text "Wrong number of indices"]
  ∧ at_ matrixA [7] = Failure [Text "Wrong number of indices"]
  ∧ ¬ identifies_arity [Text "Wrong number of indices"] 2 1.
Proof.
  repeat split; try (vm_compute; reflexivity).
  intros [H _]. apply list_elem_of_singleton in H. discriminate H.
Qed.

(** C8 on [insertedT]: the first run packs, the second changes nothing. *)
Lemma evaluate_idempotent_witness :
  evaluate insertedT = Ok packedT
  ∧ needsPack packedT = false ∧ needsCompile packedT = false
  ∧ needsAssemble packedT = false ∧ needsCompute packedT = false
  ∧ evaluate packedT = Ok packedT.
Proof.
  assert (evaluate insertedT = Ok packedT) as H by (vm_compute; reflexivity).
  split; [exact H|]. exact (proj2 (evaluate_idempotent insertedT) packedT H).
Defined.

(** C9 on [matrixA]: [A(0,1) = 5; A(0,1) = 10] stores 15. *)
Lemma scalar_access_inserts_witness :
  assign_scalar 0 matrixA [0; 1] 5 = insert matrixA [0; 1] 5
  ∧ read_scalar 0 matrixA [0; 1] = at_ matrixA [0; 1]
  ∧ ∃ t1 t2,
      assign_scalars 0 matrixA [0; 1] [5; 10] = Ok t1 ∧ pack t1 = Ok t2
      ∧ stored_at [0; 1] (stComponents (getStorage t2)) = Some (sum_from 5 [10])
      ∧ (Forall (fun r => length r.1 = getOrder matrixA) (bufRecords (coordinateBuffer matrixA)) →
         getAssignment matrixA = None → needsCompile matrixA = false →
         needsAssemble matrixA = false → needsCompute matrixA = false →
         read_scalar 0 t2 [0; 1] = Ok (t2, sum_from 5 [10])).
Proof.
  apply (scalar_access_inserts 0 matrixA [0; 1] 5 [10]); reflexivity.
Defined.

(** C10 on [packedT] and the permutation that swaps the two modes. *)
Lemma transpose_permutes_witness :
  ∃ t' yielded,
    transpose 0 packedT "B" [1; 0] CSC = Ok t'
    ∧ iterated_const 0 packedT = Ok yielded
    ∧ getDimensions t' = permute [1; 0] (getDimensions packedT)
    ∧ settled t'
    ∧ bufRecords (coordinateBuffer t') = []
    ∧ stComponents (getStorage t') = (fun r => (permute [1; 0] r.1, r.2)) <$> yielded
    ∧ ∀ coordinate value, (coordinate, value) ∈ yielded →
        (permute [1; 0] coordinate, value) ∈ stComponents (getStorage t')
        ∧ at_ t' (permute [1; 0] coordinate) = Ok (t', value).
Proof.
  apply (transpose_permutes 0 packedT "B" [1; 0] CSC).
  - split.
    + compute_done.
    + repeat constructor.
  - apply (perm_swap 0 1 []).
Defined.

(** ** The further properties on concrete tensors *)

(** X2 on three iterators at the first component of [packedT], two of
    them with a context of their own. *)
Lemma op_eq_transitive_witness :
  op_eq secondT.1 begunT.2 secondT.2 = Ok true
  ∧ op_eq secondT.1 secondT.2 begunT.2 = Ok true
  ∧ op_eq secondT.1 begunT.2 begunT.2 = Ok true.
Proof.
  assert (op_eq secondT.1 begunT.2 secondT.2 = Ok true) as H1 by (vm_compute; reflexivity).
  assert (op_eq secondT.1 secondT.2 begunT.2 = Ok true) as H2 by (vm_compute; reflexivity).
  split; [exact H1|]. split; [exact H2|].
  exact (op_eq_transitive secondT.1 begunT.2 secondT.2 begunT.2 H1 H2).
Defined.

(** X3 on [packedT.begin()] and [packedT.end()], in an empty free store:
    the context of [begin()] is not looked at. *)
Lemma comparison_with_end_witness :
  op_neq [] begunT.2 (end_of 0 packedT) = Ok true
  ∧ op_neq [] (end_of 0 packedT) begunT.2 = Ok true.
Proof.
  assert (tensor begunT.2 = tensor (end_of 0 packedT)) as H1 by (vm_compute; reflexivity).
  assert (isEnd (end_of 0 packedT) = true) as H2 by (vm_compute; reflexivity).
  destruct (comparison_with_end_reads_no_context [] begunT.2 (end_of 0 packedT) H1 H2)
    as (_ & Hn & _ & Hn').
  assert (negb (isEnd begunT.2) = true) as He by (vm_compute; reflexivity).
  rewrite He in Hn, Hn'. split; [exact Hn|exact Hn'].
Defined.

(** X5 and X8 on [packedT.begin()] and [++it]: the step is taken in
    place and shows the second component. *)
Lemma advance_shows_record_witness :
  advance begunT.1 begunT.2 = Ok (steppedT.1, steppedT.2)
  ∧ ∃ a s, ctx steppedT.2 = Some a ∧ steppedT.1 !! a = Some s
      ∧ deref steppedT.1 steppedT.2 = Ok (curVal (pointee s))
      ∧ valBuffer (pointee s) !! bufferPos steppedT.2 = Some (curVal (pointee s)).2.
Proof.
  assert (advance begunT.1 begunT.2 = Ok (steppedT.1, steppedT.2)) as H
    by (vm_compute; reflexivity).
  destruct (advance_shows_record_at_position _ _ _ _ H)
    as (a & s & Hc & Ha & _ & _ & Hv & Hd & _).
  split; [exact H|]. exists a, s.
  split; [exact Hc|]. split; [exact Ha|]. split; [exact Hd|exact Hv].
Defined.

Lemma pre_increment_in_place_witness :
  pre_increment begunT.1 begunT.2 = Ok (steppedT.1, steppedT.2)
  ∧ use_count_of begunT.1 (ctx begunT.2) = 1%nat
  ∧ ctx steppedT.2 = ctx begunT.2 ∧ length steppedT.1 = length begunT.1.
Proof.
  assert (pre_increment begunT.1 begunT.2 = Ok (steppedT.1, steppedT.2)) as H
    by (vm_compute; reflexivity).
  assert (use_count_of begunT.1 (ctx begunT.2) = 1%nat) as Hu by (vm_compute; reflexivity).
  destruct (pre_increment_in_place _ _ _ _ H Hu) as (Hc & Hl & _).
  split; [exact H|]. split; [exact Hu|]. split; [exact Hc|exact Hl].
Defined.

(** X6 on the copy of [packedT.begin()], whose context has two owners. *)
Lemma advance_owns_what_it_writes_witness :
  advance copiedT.1 copiedT.2 = Ok (advancedT.1, advancedT.2)
  ∧ (1 < use_count_of copiedT.1 (ctx copiedT.2))%nat
  ∧ use_count_of advancedT.1 (ctx advancedT.2) = 1%nat
  ∧ ctx advancedT.2 = Some (length copiedT.1)
  ∧ use_count_of advancedT.1 (ctx copiedT.2) = pred (use_count_of copiedT.1 (ctx copiedT.2)).
Proof.
  assert (advance copiedT.1 copiedT.2 = Ok (advancedT.1, advancedT.2)) as H
    by (vm_compute; reflexivity).
  assert (1 < use_count_of copiedT.1 (ctx copiedT.2))%nat as Hu by (vm_compute; lia).
  destruct (advance_owns_what_it_writes _ _ _ _ H ltac:(lia)) as (H1 & _ & Hs & _).
  destruct (Hs Hu) as [Hc Hp].
  split; [exact H|]. split; [exact Hu|]. split; [exact H1|]. split; [exact Hc|exact Hp].
Defined.

(** X7 on [packedT.begin()]. *)
Lemma post_increment_witness :
  post_increment begunT.1 begunT.2 = Ok (postT.1.1, postT.1.2, postT.2)
  ∧ postT.2 = begunT.2
  ∧ deref postT.1.1 postT.2 = deref begunT.1 begunT.2
  ∧ ctx postT.1.2 = Some (length begunT.1).
Proof.
  assert (post_increment begunT.1 begunT.2 = Ok (postT.1.1, postT.1.2, postT.2)) as H
    by (vm_compute; reflexivity).
  assert (0 < use_count_of begunT.1 (ctx begunT.2))%nat as Hu by (vm_compute; lia).
  destruct (post_increment_returns_the_old_iterator _ _ _ _ _ H Hu)
    as (Hr & Hd & _ & _ & Hc & _).
  split; [exact H|]. split; [exact Hr|]. split; [exact Hd|exact Hc].
Defined.

(** X9 on [packedT]: the record inserted at [{1,1}] is not iterated. *)
Lemma pending_records_are_invisible_witness :
  insert packedT [1; 1] 3 = Ok (inserted packedT [1; 1] 3)
  ∧ iterated_const 0 (inserted packedT [1; 1] 3) = iterated_const 0 packedT
  ∧ transpose 0 (inserted packedT [1; 1] 3) "B" [1; 0] CSC = transpose 0 packedT "B" [1; 0] CSC.
Proof.
  assert (insert packedT [1; 1] 3 = Ok (inserted packedT [1; 1] 3)) as H
    by (apply insert_Ok; reflexivity).
  destruct (pending_records_are_invisible 0 packedT [1; 1] 3 _ "B" [1; 0] CSC H)
    as (_ & _ & Hi & Ht).
  split; [exact H|]. split; [exact Hi|exact Ht].
Defined.

(** X11 and X13 on the three insertions into [matrixA]. *)
Lemma setFromComponents_appends_witness :
  setFromComponents matrixA [([0; 1], 5); ([1; 2], 7); ([0; 1], 10)] = Ok insertedT
  ∧ bufRecords (coordinateBuffer insertedT) =
      bufRecords (coordinateBuffer matrixA) ++ [([0; 1], 5); ([1; 2], 7); ([0; 1], 10)]
  ∧ coordinateBufferUsed insertedT = (coordinateBufferUsed matrixA + 3 * coordinateSize matrixA)%N.
Proof.
  assert (setFromComponents matrixA [([0; 1], 5); ([1; 2], 7); ([0; 1], 10)] = Ok insertedT)
    as H by (vm_compute; reflexivity).
  destruct (setFromComponents_appends _ _ _ H) as (Hr & Hu & _).
  split; [exact H|]. split; [exact Hr|exact Hu].
Defined.

Lemma full_buffer_stays_full_witness :
  setFromComponents matrixA [([0; 1], 5); ([1; 2], 7); ([0; 1], 10)] = Ok insertedT
  ∧ bufSize (coordinateBuffer matrixA) = coordinateBufferUsed matrixA
  ∧ bufSize (coordinateBuffer insertedT) = coordinateBufferUsed insertedT
  ∧ bufSize (coordinateBuffer insertedT) =
      (bufSize (coordinateBuffer matrixA) + 3 * coordinateSize matrixA)%N.
Proof.
  assert (setFromComponents matrixA [([0; 1], 5); ([1; 2], 7); ([0; 1], 10)] = Ok insertedT)
    as H by (vm_compute; reflexivity).
  assert (bufSize (coordinateBuffer matrixA) = coordinateBufferUsed matrixA) as Hf
    by reflexivity.
  destruct (full_buffer_stays_full _ _ _ H Hf ltac:(vm_compute; reflexivity)) as [H1 H2].
  split; [exact H|]. split; [exact Hf|]. split; [exact H1|exact H2].
Defined.

(** X15 on [packedT], a matrix, and the mode 2. *)
Lemma transpose_mode_out_of_range_witness :
  transpose 0 packedT "B" [0; 2] CSR = Undefined.
Proof.
  apply (transpose_mode_out_of_range 0 packedT "B" [0; 2] CSR).
  apply Exists_cons_tl, Exists_cons_hd. right. vm_compute. discriminate.
Defined.

(** X16 and X17 on the compressed matrix. *)
Lemma getCSRArrays_Ok_witness : getCSRArrays csrT = Ok ([0; 1; 2], [1; 2], [15; 7]).
Proof.
  apply (proj2 (getCSRArrays_Ok_iff csrT [0; 1; 2] [1; 2] [15; 7])).
  split; [reflexivity|].
  exists [mkArray Int32 [0; 1; 2]; mkArray Int32 [1; 2]],
         (mkArray Int32 [0; 1; 2]), (mkArray Int32 [1; 2]).
  repeat split.
Defined.

Lemma getCSCArrays_witness :
  getCSCArrays cscT = getCSRArrays csrT
  ∧ getCSCArrays csrT =
      Failure [Text "The tensor "; TensorName "A"; Text " is not defined in the CSC format"].
Proof.
  destruct (getCSCArrays_reads_the_second_mode cscT csrT ([0; 1; 2], [1; 2], [15; 7]))
    as (_ & Hsame & _).
  destruct (getCSCArrays_reads_the_second_mode csrT csrT ([0; 1; 2], [1; 2], [15; 7]))
    as (Hfail & _).
  split.
  - apply Hsame; reflexivity.
  - apply Hfail. vm_compute. discriminate.
Defined.

(** X18 on [longT]: 251 components are yielded, and [at] returns the
    value of the first of the two components at [{7,0}]. *)
Lemma iteration_yields_every_component_witness :
  iterated_const 0 longT = Ok (stComponents (getStorage longT))
  ∧ length (stComponents (getStorage longT)) = 251%nat
  ∧ at_ longT [7; 0] = Ok (longT, 7).
Proof.
  assert (Forall (fun r : list Z * Z => length r.1 = getOrder longT)
            (stComponents (getStorage longT))) as Hall.
  { compute_done. }
  destruct (iteration_yields_every_component 0 longT Hall) as [Hi Hat].
  split; [exact Hi|]. split; [vm_compute; reflexivity|].
  assert (stored_at [7; 0] (stComponents (getStorage longT)) = Some 7) as Hs
    by (vm_compute; reflexivity).
  rewrite (Hat ltac:(repeat split) eq_refl [7; 0] eq_refl), Hs. reflexivity.
Defined.

(** X19 on [packedT], which is not empty. *)
Lemma begin_is_end_iff_empty_witness :
  ∃ h' it end_it,
    begin_const [] 0 packedT = Ok (h', it) ∧ end_const h' 0 packedT = Ok (h', end_it)
    ∧ op_eq h' it end_it = Ok (bool_decide (stComponents (getStorage packedT) = []))
    ∧ (∀ value rest, stComponents (getStorage packedT) = value :: rest →
         deref h' it = Ok value).
Proof.
  apply (begin_is_end_iff_empty [] 0 packedT). repeat constructor.
Defined.

(** X20 on [longT]: 150 steps from [begin()] cross the end of the first
    batch and show component number 150. *)
Lemma increments_walk_the_storage_witness :
  ∃ h0 it0 h' it',
    begin_const [] 0 longT = Ok (h0, it0) ∧ advance_n 150 h0 it0 = Ok (h', it')
    ∧ isEnd it' = false ∧ deref h' it' = Ok ([150; 0], 150).
Proof.
  destruct (increments_walk_the_storage [] 0 longT 150 ltac:(compute_done)
              ltac:(vm_compute; lia)) as (h0 & it0 & h' & it' & Hb & Ha & He & Hd).
  exists h0, it0, h', it'. split; [exact Hb|]. split; [exact Ha|]. split.
  - rewrite He. vm_compute. reflexivity.
  - apply Hd. vm_compute. reflexivity.
Defined.

(** X21 on [longT]: the iterator stands at component 99, the last of the
    first batch; its copy is advanced twice, into the second batch. *)
Lemma copy_continues_witness :
  ∃ h0 it0 h1 it h2 cp h3 cp',
    begin_const [] 0 longT = Ok (h0, it0) ∧ advance_n 99 h0 it0 = Ok (h1, it)
    ∧ const_iterator_copy h1 it = (h2, cp)
    ∧ advance_n 2 h2 cp = Ok (h3, cp')
    ∧ deref h3 cp' = Ok ([101; 0], 101)
    ∧ deref h3 it = Ok ([99; 0], 99).
Proof.
  destruct (copy_continues_from_the_original [] 0 longT 99 2 ltac:(compute_done)
              ltac:(vm_compute; lia))
    as (h0 & it0 & h1 & it & h2 & cp & h3 & cp' & Hb & Ha & Hc & Hm & Hd & _ & Ho).
  exists h0, it0, h1, it, h2, cp, h3, cp'.
  split; [exact Hb|]. split; [exact Ha|]. split; [exact Hc|]. split; [exact Hm|]. split.
  - apply Hd. vm_compute. reflexivity.
  - apply Ho. vm_compute. reflexivity.
Defined.

(** X10 on the three insertions into [matrixA], and X14 on [matrixA(7)]. *)
Lemma setFromComponents_succeeds_witness :
  ∃ t', setFromComponents matrixA [([0; 1], 5); ([1; 2], 7); ([0; 1], 10)] = Ok t'.
Proof.
  apply (proj2 (proj1 (setFromComponents_succeeds_iff matrixA
                         [([0; 1], 5); ([1; 2], 7); ([0; 1], 10)]))).
  split; [repeat constructor|right; reflexivity].
Defined.

Lemma scalar_access_checks_arity_witness :
  assign_scalar 0 matrixA [7] 1 = Failure (wrong_index_count matrixA [7])
  ∧ read_scalar 0 matrixA [7] = Failure (wrong_index_count matrixA [7]).
Proof.
  apply (proj1 (scalar_access_checks_arity_first 0 matrixA [7] 1)).
  vm_compute. discriminate.
Defined.
